(** * BudgetGrid: the editable-grid controller of [src/components/BudgetGrid.tsx]

    The component keeps six pieces of React state ([rows], [drafts],
    [loading], [loadError], [saving], [fieldErrors]) and three callbacks
    that change them: [loadBudgets], [handleDraftChange] and [handleCommit].
    This development embeds the callbacks as functions on an explicit
    [State] record.  The two asynchronous callbacks are split at their
    single [await]: the part that runs before the request is issued and
    the part that runs once the request has settled.

    Strings are sequences of code units; the embedding covers code units
    below 256, which is what [Stdlib.Strings.String] holds. *)

From Stdlib Require Import ZArith String Ascii List Floats.SpecFloat Zpower.
From stdpp Require Import gmap strings list.

Local Open Scope string_scope.
Local Open Scope Z_scope.

(** ** The built-ins the component calls

    [String.prototype.trim], [Number(string)], [Number.isFinite] and
    [String(number)], as ECMAScript defines them.  Numbers are IEEE 754
    binary64 values, carried by [spec_float]. *)
Module Js.

(** WhiteSpace and LineTerminator code units below 256: TAB, LF, VT, FF,
    CR, SP and NBSP. *)
Definition isWhiteSpace (c : ascii) : bool :=
  let n := N_of_ascii c in
  ((9 <=? n) && (n <=? 13) || (n =? 32) || (n =? 160))%N.

Fixpoint trimStart (s : string) : string :=
  match s with
  | String c s' => if isWhiteSpace c then trimStart s' else s
  | EmptyString => EmptyString
  end.

Fixpoint trimEnd (s : string) : string :=
  match s with
  | EmptyString => EmptyString
  | String c s' =>
      match trimEnd s' with
      | EmptyString => if isWhiteSpace c then EmptyString else String c EmptyString
      | t => String c t
      end
  end.

Definition trim (s : string) : string := trimEnd (trimStart s).

Fixpoint noWhiteSpace (s : string) : bool :=
  match s with
  | EmptyString => true
  | String c s' => negb (isWhiteSpace c) && noWhiteSpace s'
  end.

(** No white space at the start. *)
Definition headOk (s : string) : bool :=
  match s with
  | String c _ => negb (isWhiteSpace c)
  | EmptyString => true
  end.

Fixpoint allWhiteSpace (s : string) : bool :=
  match s with
  | EmptyString => true
  | String c s' => isWhiteSpace c && allWhiteSpace s'
  end.

Definition number := spec_float.
Definition prec := 53.
Definition emax := 1024.

Definition pos_zero : number := S754_zero false.

Definition digitValue (c : ascii) : option Z :=
  let n := Z.of_N (N_of_ascii c) in
  if (48 <=? n) && (n <=? 57) then Some (n - 48)
  else if (97 <=? n) && (n <=? 102) then Some (n - 87)
  else if (65 <=? n) && (n <=? 70) then Some (n - 55)
  else None.

Definition digitIn (radix : Z) (c : ascii) : option Z :=
  match digitValue c with
  | Some d => if d <? radix then Some d else None
  | None => None
  end.

(** Reads the longest run of digits of the radix: its value, its length
    and what follows it. *)
Fixpoint scanDigits (radix acc count : Z) (s : string) : Z * Z * string :=
  match s with
  | String c s' =>
      match digitIn radix c with
      | Some d => scanDigits radix (radix * acc + d) (count + 1) s'
      | None => (acc, count, s)
      end
  | EmptyString => (acc, count, s)
  end.

(** The Number value for the mathematical value [m * 10 ^ e10], rounded to
    nearest, ties to even. *)
Definition roundDecimal (neg : bool) (m e10 : Z) : number :=
  if m =? 0 then S754_zero neg
  else if 0 <=? e10 then binary_normalize prec emax (cond_Zopp neg (m * 10 ^ e10)) 0 false
  else SFdiv prec emax (S754_finite neg (Z.to_pos m) 0)
                       (S754_finite false (Z.to_pos (10 ^ (- e10))) 0).

(** NonDecimalIntegerLiteral, after its [0x], [0o] or [0b] prefix. *)
Definition parseRadix (radix : Z) (s : string) : number :=
  match scanDigits radix 0 0 s with
  | (m, count, EmptyString) => if 0 <? count then roundDecimal false m 0 else S754_nan
  | _ => S754_nan
  end.

(** ExponentPart, optional: [None] when what is left is not one. *)
Definition parseExponent (s : string) : option Z :=
  match s with
  | String c s' =>
      if (c =? "e")%char || (c =? "E")%char then
        let '(neg, digits) :=
          match s' with
          | String "+" r => (false, r)
          | String "-" r => (true, r)
          | _ => (false, s')
          end in
        match scanDigits 10 0 0 digits with
        | (e, count, EmptyString) => if 0 <? count then Some (cond_Zopp neg e) else None
        | _ => None
        end
      else None
  | EmptyString => Some 0
  end.

(** StrUnsignedDecimalLiteral. *)
Definition parseUnsignedDecimal (neg : bool) (s : string) : number :=
  if String.eqb s "Infinity" then S754_infinity neg
  else
    let '(ip, icount, r1) := scanDigits 10 0 0 s in
    let '(m, fcount, r2) :=
      match r1 with
      | String "." r => scanDigits 10 ip 0 r
      | _ => (ip, 0, r1)
      end in
    if 0 <? icount + fcount then
      match parseExponent r2 with
      | Some e => roundDecimal neg m (e - fcount)
      | None => S754_nan
      end
    else S754_nan.

(** [Number(str)]: StringToNumber. *)
Definition Number (str : string) : number :=
  match trim str with
  | EmptyString => pos_zero
  | String "0" (String "x" r) | String "0" (String "X" r) => parseRadix 16 r
  | String "0" (String "o" r) | String "0" (String "O" r) => parseRadix 8 r
  | String "0" (String "b" r) | String "0" (String "B" r) => parseRadix 2 r
  | String "+" r => parseUnsignedDecimal false r
  | String "-" r => parseUnsignedDecimal true r
  | s => parseUnsignedDecimal false s
  end.

(** [x === y] on numbers: [NaN] equals nothing, [+0] equals [-0]. *)
Definition strictEquals (x y : number) : bool := SFeqb x y.

(** [Number.isFinite(x)] on a value that is a number. *)
Definition isFinite (x : number) : bool :=
  match x with
  | S754_zero _ | S754_finite _ _ _ => true
  | S754_infinity _ | S754_nan => false
  end.

Definition digitChar (d : Z) : ascii := ascii_of_N (Z.to_N (48 + d)).

(** The [j] low decimal digits of [s], the most significant first. *)
Fixpoint digitsFrom (j : nat) (s : Z) : string :=
  match j with
  | O => EmptyString
  | S j' => String (digitChar ((s / 10 ^ Z.of_nat j') mod 10)) (digitsFrom j' s)
  end.

(** How many decimal digits [z] has. *)
Fixpoint digitCount (fuel : nat) (z : Z) : nat :=
  match fuel with
  | O => 1%nat
  | S fuel' => if z <? 10 then 1%nat else S (digitCount fuel' (z / 10))
  end.

Definition decimalDigits (z : Z) : string :=
  digitsFrom (digitCount (Z.to_nat z) z) z.

Fixpoint zeros (n : nat) : string :=
  match n with
  | O => EmptyString
  | S n' => String "0" (zeros n')
  end.

(** [xn / xd < 10 ^ n] *)
Definition belowPow10 (xn xd n : Z) : bool :=
  if 0 <=? n then xn <? xd * 10 ^ n else xn * 10 ^ (- n) <? xd.

Fixpoint searchUp (fuel : nat) (n xn xd : Z) : Z :=
  match fuel with
  | O => n
  | S fuel' => if belowPow10 xn xd n then n else searchUp fuel' (n + 1) xn xd
  end.

(** The [n] with [10 ^ (n - 1) <= xn / xd < 10 ^ n]: searched upwards from
    a guess when the guess is not above it, from a bound below it
    otherwise, up to a bound above it. *)
Definition decimalPoint (xn xd : Z) : Z :=
  let guess := (Z.log2 xn - Z.log2 xd) * 30103 / 100000 in
  let start := if belowPow10 xn xd (guess - 1) then - Z.log2 xd else guess in
  searchUp (Z.to_nat (Z.log2 xn + 1 - start)) start xn xd.

(** [xn / xd / 10 ^ p] as a fraction. *)
Definition scaled (xn xd p : Z) : Z * Z :=
  if 0 <=? p then (xn, xd * 10 ^ p) else (xn * 10 ^ (- p), xd).

(** The digits [s], their number [k] and the position [n] of the decimal
    point for the decimal [s * 10 ^ (n - k)]; [10 ^ k] is written with the
    [k] digits of [10 ^ (k - 1)]. *)
Definition candidate (k n s : Z) : Z * Z * Z :=
  if s =? 10 ^ k then (10 ^ (k - 1), k, n + 1) else (s, k, n).

(** Whether the decimal [s * 10 ^ (n - k)] reads back as [x]. *)
Definition readsBack (x : number) (c : Z * Z * Z) : bool :=
  let '(s, k, n) := c in strictEquals (roundDecimal false s (n - k)) x.

(** Number::toString, step 5: the least [k] and the [s] of [k] digits,
    nearest to [x], such that [s * 10 ^ (n - k)] reads back as [x].  The
    candidates are the [k]-digit decimals just below and just above [x]. *)
Fixpoint shortest (fuel : nat) (k n xn xd : Z) (x : number) : Z * Z * Z :=
  let '(qn, qd) := scaled xn xd (n - k) in
  let lo := qn / qd in
  let hi := lo + 1 in
  match readsBack x (candidate k n lo), readsBack x (candidate k n hi) with
  | true, true =>
      match 2 * qn ?= (lo + hi) * qd with
      | Lt => candidate k n lo
      | Gt => candidate k n hi
      | Eq => candidate k n (if Z.even lo then lo else hi)
      end
  | true, false => candidate k n lo
  | false, true => candidate k n hi
  | false, false =>
      match fuel with
      | O => candidate k n lo
      | S fuel' => shortest fuel' (k + 1) n xn xd x
      end
  end.

(** Number::toString, steps 6 to 10, for the [k] digits of [s] and the
    decimal point after the [n]-th. *)
Definition formatDecimal (s k n : Z) : string :=
  if (k <=? n) && (n <=? 21) then digitsFrom (Z.to_nat k) s +:+ zeros (Z.to_nat (n - k))
  else if (0 <? n) && (n <=? 21) then
    digitsFrom (Z.to_nat n) (s / 10 ^ (k - n)) +:+ "." +:+
    digitsFrom (Z.to_nat (k - n)) s
  else if (-6 <? n) && (n <=? 0) then
    "0." +:+ zeros (Z.to_nat (- n)) +:+ digitsFrom (Z.to_nat k) s
  else
    let e := n - 1 in
    let sign := if e <? 0 then "-" else "+" in
    let mant :=
      if k =? 1 then digitsFrom 1 s
      else digitsFrom 1 (s / 10 ^ (k - 1)) +:+ "." +:+ digitsFrom (Z.to_nat (k - 1)) s in
    mant +:+ "e" +:+ sign +:+ decimalDigits (Z.abs e).

(** The value is [m * 2 ^ e]; the search has fuel to reach its last
    decimal digit. *)
Definition toStringPositive (m : positive) (e : Z) : string :=
  let xn := if 0 <=? e then Z.pos m * 2 ^ e else Z.pos m in
  let xd := if 0 <=? e then 1 else 2 ^ (- e) in
  let n := decimalPoint xn xd in
  let '(s, k, n') :=
    shortest (Z.to_nat (n - Z.min e 0 - 1)) 1 n xn xd (S754_finite false m e) in
  formatDecimal s k n'.

(** [String(x)]: Number::toString with radix 10. *)
Definition toString (x : number) : string :=
  match x with
  | S754_nan => "NaN"
  | S754_zero _ => "0"
  | S754_infinity false => "Infinity"
  | S754_infinity true => "-Infinity"
  | S754_finite false m e => toStringPositive m e
  | S754_finite true m e => "-" +:+ toStringPositive m e
  end.

End Js.

(** ** Data model *)

Record BudgetRow := {
  id : string;
  name : string;
  budgetConsumed : string;
  ownerId : string;
}.

Inductive DraftField := FName | FBudgetConsumed | FOwnerId.

Global Instance DraftField_eq_dec : EqDecision DraftField.
Proof. solve_decision. Defined.

(** The string a [DraftField] is at run time. *)
Definition fieldName (field : DraftField) : string :=
  match field with
  | FName => "name"
  | FBudgetConsumed => "budgetConsumed"
  | FOwnerId => "ownerId"
  end.

(** [row[field]] *)
Definition getField (row : BudgetRow) (field : DraftField) : string :=
  match field with
  | FName => row.(name)
  | FBudgetConsumed => row.(budgetConsumed)
  | FOwnerId => row.(ownerId)
  end.

(** [{ ...row, [field]: value }] *)
Definition setField (row : BudgetRow) (field : DraftField) (value : string) : BudgetRow :=
  match field with
  | FName =>
      {| id := row.(id); name := value;
         budgetConsumed := row.(budgetConsumed); ownerId := row.(ownerId) |}
  | FBudgetConsumed =>
      {| id := row.(id); name := row.(name);
         budgetConsumed := value; ownerId := row.(ownerId) |}
  | FOwnerId =>
      {| id := row.(id); name := row.(name);
         budgetConsumed := row.(budgetConsumed); ownerId := value |}
  end.

(** The objects held in [drafts].  [handleDraftChange] spreads
    [current[id]], which is [undefined] for an id that was never seeded,
    so an entry may lack properties. *)
Record PartialRow := {
  p_id : option string;
  p_name : option string;
  p_budgetConsumed : option string;
  p_ownerId : option string;
}.

Definition emptyObject : PartialRow :=
  {| p_id := None; p_name := None; p_budgetConsumed := None; p_ownerId := None |}.

(** [{ ...item }] *)
Definition spread (item : BudgetRow) : PartialRow :=
  {| p_id := Some item.(id); p_name := Some item.(name);
     p_budgetConsumed := Some item.(budgetConsumed);
     p_ownerId := Some item.(ownerId) |}.

(** [o?.[field]] *)
Definition prop (o : PartialRow) (field : DraftField) : option string :=
  match field with
  | FName => o.(p_name)
  | FBudgetConsumed => o.(p_budgetConsumed)
  | FOwnerId => o.(p_ownerId)
  end.

(** [{ ...o, [field]: value }], where spreading [undefined] adds nothing. *)
Definition withProp (o : option PartialRow) (field : DraftField) (value : string)
  : PartialRow :=
  let o := default emptyObject o in
  match field with
  | FName =>
      {| p_id := o.(p_id); p_name := Some value;
         p_budgetConsumed := o.(p_budgetConsumed); p_ownerId := o.(p_ownerId) |}
  | FBudgetConsumed =>
      {| p_id := o.(p_id); p_name := o.(p_name);
         p_budgetConsumed := Some value; p_ownerId := o.(p_ownerId) |}
  | FOwnerId =>
      {| p_id := o.(p_id); p_name := o.(p_name);
         p_budgetConsumed := o.(p_budgetConsumed); p_ownerId := Some value |}
  end.

(** [FieldErrors = Record<string, string | undefined>]: a key may be
    present and hold [undefined]. *)
Record State := {
  rows : list BudgetRow;
  drafts : gmap string PartialRow;
  loading : bool;
  loadError : option string;
  saving : gmap string bool;
  fieldErrors : gmap string (option string);
}.

(** [useState] initial values. *)
Definition initialState : State :=
  {| rows := []; drafts := ∅; loading := true; loadError := None;
     saving := ∅; fieldErrors := ∅ |}.

(** The state setters, each taking an updater as React's do. *)
Definition setRows (f : list BudgetRow → list BudgetRow) (st : State) : State :=
  {| rows := f st.(rows); drafts := st.(drafts); loading := st.(loading);
     loadError := st.(loadError); saving := st.(saving);
     fieldErrors := st.(fieldErrors) |}.

Definition setDrafts (f : gmap string PartialRow → gmap string PartialRow)
    (st : State) : State :=
  {| rows := st.(rows); drafts := f st.(drafts); loading := st.(loading);
     loadError := st.(loadError); saving := st.(saving);
     fieldErrors := st.(fieldErrors) |}.

Definition setLoading (b : bool) (st : State) : State :=
  {| rows := st.(rows); drafts := st.(drafts); loading := b;
     loadError := st.(loadError); saving := st.(saving);
     fieldErrors := st.(fieldErrors) |}.

Definition setLoadError (e : option string) (st : State) : State :=
  {| rows := st.(rows); drafts := st.(drafts); loading := st.(loading);
     loadError := e; saving := st.(saving); fieldErrors := st.(fieldErrors) |}.

Definition setSaving (f : gmap string bool → gmap string bool) (st : State) : State :=
  {| rows := st.(rows); drafts := st.(drafts); loading := st.(loading);
     loadError := st.(loadError); saving := f st.(saving);
     fieldErrors := st.(fieldErrors) |}.

Definition setFieldErrors
    (f : gmap string (option string) → gmap string (option string))
    (st : State) : State :=
  {| rows := st.(rows); drafts := st.(drafts); loading := st.(loading);
     loadError := st.(loadError); saving := st.(saving);
     fieldErrors := f st.(fieldErrors) |}.

(** ** The data service, as the component sees it *)

(** A record returned by [Promx_budgetsService.getAll], with the four
    selected attributes; the three optional ones may be absent. *)
Record Promx_budgets := {
  promx_budgetid : string;
  promx_name : option string;
  promx_budgetconsumed : option string;
  ownerid : option string;
}.

(** What a rejected promise carries: an [Error] with its message, or any
    other value. *)
Inductive Thrown :=
  | ThrownError (message : string)
  | ThrownOther.

Inductive Settled (A : Type) :=
  | Fulfilled (a : A)
  | Rejected (error : Thrown).
Arguments Fulfilled {A} a.
Arguments Rejected {A} error.

(** [result.data], [None] when it is not an array. *)
Definition GetAllResult := Settled (option (list Promx_budgets)).

(** Values put in [updatePayload : Record<string, unknown>]. *)
Inductive JsValue :=
  | VNumber (x : Js.number)
  | VString (s : string).

Record UpdateCall := {
  call_id : string;
  call_payload : gmap string JsValue;
}.

(** ** Helpers at the end of the source file *)

Definition getDraftValue (drafts : gmap string PartialRow) (rowId : string)
    (field : DraftField) : string :=
  default "" (drafts !! rowId ≫= λ o, prop o field).

(** [drafts[id]?.[field]], before the [?? ''] of [getDraftValue]. *)
Definition draftProp (drafts : gmap string PartialRow) (rowId : string)
    (field : DraftField) : option string :=
  drafts !! rowId ≫= λ o, prop o field.

Definition getErrorKey (rowId : string) (field : DraftField) : string :=
  rowId +:+ "-" +:+ fieldName field.

Definition getFieldLabel (field : DraftField) : string :=
  if decide (field = FBudgetConsumed) then "Budget consumed"
  else if decide (field = FOwnerId) then "Owner ID"
  else "Budget name".

(** [fieldErrors[key]] and [saving[key]] as the render reads them. *)
Definition errorAt (st : State) (key : string) : option string :=
  st.(fieldErrors) !! key ≫= λ e, e.

Definition savingAt (st : State) (key : string) : option bool :=
  st.(saving) !! key.

(** [rows.find((row) => row.id === id)] *)
Definition findRow (rows : list BudgetRow) (rowId : string) : option BudgetRow :=
  find (λ row, String.eqb row.(id) rowId) rows.

(** ** [loadBudgets] *)

(** The attribute of a fetched record a field is read from. *)
Definition attributeOf (budget : Promx_budgets) (field : DraftField) : option string :=
  match field with
  | FName => budget.(promx_name)
  | FBudgetConsumed => budget.(promx_budgetconsumed)
  | FOwnerId => budget.(ownerid)
  end.

(** The callback of [data.map]. *)
Definition mapBudget (budget : Promx_budgets) : BudgetRow :=
  {| id := budget.(promx_budgetid);
     name := default "" budget.(promx_name);
     budgetConsumed := default "" budget.(promx_budgetconsumed);
     ownerId := default "" budget.(ownerid) |}.

(** [mapped.forEach((item) => { draftSeed[item.id] = { ...item } })] on an
    empty [draftSeed]. *)
Definition seedDrafts (mapped : list BudgetRow) : gmap string PartialRow :=
  foldl (λ draftSeed item, <[item.(id) := spread item]> draftSeed) ∅ mapped.

(** Up to the [await]: [setLoading(true)], [setLoadError(undefined)]. *)
Definition loadBegin (st : State) : State :=
  setLoadError None (setLoading true st).

Definition loadErrorMessage (error : Thrown) : string :=
  match error with
  | ThrownError message => message
  | ThrownOther => "Unable to load budgets."
  end.

(** From the [await] on: the rest of [try], or [catch], then [finally]. *)
Definition loadSettle (st : State) (result : GetAllResult) : State :=
  let st :=
    match result with
    | Fulfilled data =>
        let data := default [] data in
        let mapped := map mapBudget data in
        let draftSeed := seedDrafts mapped in
        setDrafts (λ _, draftSeed) (setRows (λ _, mapped) st)
    | Rejected error => setLoadError (Some (loadErrorMessage error)) st
    end in
  setLoading false st.

(** A load with nothing dispatched while the request is in flight. *)
Definition loadBudgets (result : GetAllResult) (st : State) : State :=
  loadSettle (loadBegin st) result.

(** A grid with one loaded row, for the examples. *)
Definition exampleBudget : Promx_budgets :=
  {| promx_budgetid := "b1"; promx_name := Some "Marketing";
     promx_budgetconsumed := Some "150"; ownerid := Some "o1" |}.

Definition exampleState : State :=
  loadBudgets (Fulfilled (Some [exampleBudget])) initialState.

(** ** [handleDraftChange] *)

Definition handleDraftChange (rowId : string) (field : DraftField) (value : string)
    (st : State) : State :=
  setDrafts (λ current, <[rowId := withProp (current !! rowId) field value]> current) st.

(** ** [handleCommit] *)

(** Where the synchronous part of [handleCommit] ends: at a [return], or
    at the [await] with the request it issued and the [nextValue] its
    continuation holds. *)
Inductive CommitStep :=
  | Returned (st : State)
  | Awaiting (st : State) (call : UpdateCall) (nextValue : string).

Definition commitErrorMessage (error : Thrown) : string :=
  match error with
  | ThrownError message => message
  | ThrownOther => "Unable to save changes."
  end.

Definition commitBegin (rowId : string) (field : DraftField) (value : string)
    (st : State) : CommitStep :=
  let draftValue := Js.trim value in
  match findRow st.(rows) rowId with
  | None => Returned st
  | Some original =>
      let errorKey := getErrorKey rowId field in
      let updatePayload : gmap string JsValue := ∅ in
      let nextValue := draftValue in
      let parsed := Js.Number draftValue in
      if bool_decide (field = FBudgetConsumed) && negb (Js.isFinite parsed) then
        Returned (setFieldErrors
                    (λ current, <[errorKey := Some "Enter a valid number."]> current) st)
      else
        let updatePayload :=
          if bool_decide (field = FBudgetConsumed)
          then <["promx_budgetconsumed" := VNumber parsed]> updatePayload
          else updatePayload in
        let nextValue :=
          if bool_decide (field = FBudgetConsumed) then Js.toString parsed
          else nextValue in
        let updatePayload :=
          if bool_decide (field = FName)
          then <["promx_name" := VString draftValue]> updatePayload
          else updatePayload in
        let updatePayload :=
          if bool_decide (field = FOwnerId)
          then <["ownerid" := VString draftValue]> updatePayload
          else updatePayload in
        let originalValue := getField original field in
        if String.eqb originalValue nextValue then
          Returned (setFieldErrors (λ current, <[errorKey := None]> current) st)
        else
          Awaiting (setSaving (λ current, <[errorKey := true]> current) st)
                   {| call_id := rowId; call_payload := updatePayload |}
                   nextValue
  end.

(** The continuation: the rest of [try], or [catch], then [finally].  The
    setters read the state current when they run. *)
Definition commitSettle (rowId : string) (field : DraftField) (nextValue : string)
    (outcome : Settled unit) (st : State) : State :=
  let errorKey := getErrorKey rowId field in
  let st :=
    match outcome with
    | Fulfilled _ =>
        let st :=
          setRows (λ current,
                     map (λ row, if String.eqb row.(id) rowId
                                 then setField row field nextValue
                                 else row) current) st in
        let st :=
          setDrafts (λ current,
                       <[rowId := withProp (current !! rowId) field nextValue]> current)
                    st in
        setFieldErrors (λ current, <[errorKey := None]> current) st
    | Rejected error =>
        setFieldErrors
          (λ current, <[errorKey := Some (commitErrorMessage error)]> current) st
    end in
  setSaving (λ current, <[errorKey := false]> current) st.

(** A commit with nothing dispatched while the request is in flight:
    the final state and the update requests issued.  [update] stands for
    [Promx_budgetsService.update]. *)
Definition handleCommit (update : string → gmap string JsValue → Settled unit)
    (rowId : string) (field : DraftField) (value : string) (st : State)
    : State * list UpdateCall :=
  match commitBegin rowId field value st with
  | Returned st' => (st', [])
  | Awaiting st' call nextValue =>
      (commitSettle rowId field nextValue
                    (update call.(call_id) call.(call_payload)) st',
       [call])
  end.

(** ** The event loop

    Every run-to-completion piece of the callbacks is an event; requests in
    flight are resumed by their own events, in any order. *)
Inductive Event :=
  | EvDraftChange (rowId : string) (field : DraftField) (value : string)
  | EvCommit (rowId : string) (field : DraftField) (value : string)
  | EvUpdateSettled (rowId : string) (field : DraftField) (nextValue : string)
                    (outcome : Settled unit)
  | EvLoad
  | EvLoadSettled (result : GetAllResult).

Definition dispatch (st : State) (ev : Event) : State * list UpdateCall :=
  match ev with
  | EvDraftChange rowId field value => (handleDraftChange rowId field value st, [])
  | EvCommit rowId field value =>
      match commitBegin rowId field value st with
      | Returned st' => (st', [])
      | Awaiting st' call _ => (st', [call])
      end
  | EvUpdateSettled rowId field nextValue outcome =>
      (commitSettle rowId field nextValue outcome st, [])
  | EvLoad => (loadBegin st, [])
  | EvLoadSettled result => (loadSettle st result, [])
  end.

Fixpoint run (st : State) (evs : list Event) : State * list UpdateCall :=
  match evs with
  | [] => (st, [])
  | ev :: evs' =>
      let '(st1, calls1) := dispatch st ev in
      let '(st2, calls2) := run st1 evs' in
      (st2, (calls1 ++ calls2)%list)
  end.

(** The field key an event works on, if any. *)
Definition eventKey (ev : Event) : option (string * DraftField) :=
  match ev with
  | EvCommit rowId field _ | EvUpdateSettled rowId field _ _ => Some (rowId, field)
  | EvDraftChange _ _ _ | EvLoad | EvLoadSettled _ => None
  end.

(** [nextValue] of a commit that passes validation. *)
Definition nextValueOf (field : DraftField) (value : string) : string :=
  if bool_decide (field = FBudgetConsumed) then Js.toString (Js.Number (Js.trim value))
  else Js.trim value.

(** [updatePayload] of a commit that passes validation. *)
Definition payloadOf (field : DraftField) (value : string) : gmap string JsValue :=
  match field with
  | FName => {[ "promx_name" := VString (Js.trim value) ]}
  | FBudgetConsumed => {[ "promx_budgetconsumed" := VNumber (Js.Number (Js.trim value)) ]}
  | FOwnerId => {[ "ownerid" := VString (Js.trim value) ]}
  end.

(** The validation of [handleCommit]: only [budgetConsumed] is checked. *)
Definition passesValidation (field : DraftField) (value : string) : bool :=
  negb (bool_decide (field = FBudgetConsumed)) || Js.isFinite (Js.Number (Js.trim value)).

(** ** What the component renders *)

(** A [string | undefined] used as a condition: [undefined] and the empty
    string are falsy. *)
Definition truthyString (o : option string) : option string :=
  match o with
  | Some s => if String.eqb s "" then None else Some s
  | None => None
  end.

(** The content of the panel: the skeleton, the load error, the empty
    state, or both views of the rows. *)
Inductive Panel :=
  | PanelSkeleton
  | PanelLoadError (message : string)
  | PanelEmpty
  | PanelGrid (items : list BudgetRow).

Definition panel (st : State) : Panel :=
  if st.(loading) then PanelSkeleton
  else
    match truthyString st.(loadError) with
    | Some message => PanelLoadError message
    | None =>
        if (length st.(rows) =? 0)%nat then PanelEmpty else PanelGrid st.(rows)
    end.

(** [disabled={loading}] of the Refresh button. *)
Definition refreshDisabled (st : State) : bool := st.(loading).

(** The props an [EditableField] gets, in a column cell and in a card
    alike. *)
Record EditableFieldProps := {
  ef_field : DraftField;
  ef_item : BudgetRow;
  ef_value : string;
  ef_error : option string;
  ef_saving : option bool;
}.

Definition editableField (st : State) (item : BudgetRow) (field : DraftField)
  : EditableFieldProps :=
  {| ef_field := field;
     ef_item := item;
     ef_value := getDraftValue st.(drafts) item.(id) field;
     ef_error := errorAt st (getErrorKey item.(id) field);
     ef_saving := savingAt st (getErrorKey item.(id) field) |}.

(** [saving ? <Text>Saving...</Text> : null] *)
Definition showsSaving (props : EditableFieldProps) : bool :=
  match props.(ef_saving) with
  | Some true => true
  | _ => false
  end.

(** [error ? <Text>{error}</Text> : null] *)
Definition shownError (props : EditableFieldProps) : option string :=
  truthyString props.(ef_error).

(** [onChange={(_, data) => onChange(item.id, field, data.value)}] *)
Definition onChange (props : EditableFieldProps) (dataValue : string) : Event :=
  EvDraftChange props.(ef_item).(id) props.(ef_field) dataValue.

(** [onBlur={() => void onCommit(item.id, field, value)}]; the Enter key
    blurs the input. *)
Definition onBlur (props : EditableFieldProps) : Event :=
  EvCommit props.(ef_item).(id) props.(ef_field) props.(ef_value).

(** A draft object with every property of a row, carrying the id. *)
Definition completeFor (rowId : string) (o : PartialRow) : Prop :=
  o.(p_id) = Some rowId ∧ is_Some o.(p_name) ∧
  is_Some o.(p_budgetConsumed) ∧ is_Some o.(p_ownerId).

(** Every row has a complete draft under its id. *)
Definition draftsCoverRows (st : State) : Prop :=
  ∀ r, r ∈ st.(rows) → ∃ o, st.(drafts) !! r.(id) = Some o ∧ completeFor r.(id) o.

(** ** What [String] writes

    The digits a search for the shortest decimal may return, and the two
    ways a written number may start. *)

(** [k] digits [s], with the decimal point after the [n]-th, that read
    back as [x]. *)
Definition goodDigits (x : Js.number) (c : Z * Z * Z) : Prop :=
  let '(s, k, n) := c in
  1 ≤ k ∧ 10 ^ (k - 1) ≤ s < 10 ^ k ∧ Js.readsBack x c = true.

(** The head of a rendered number: a digit, and [0] only before the
    decimal point. *)
Inductive headed : string → Prop :=
  | headed_digit (d : Z) (r : string) : 1 ≤ d ≤ 9 → headed (String (Js.digitChar d) r)
  | headed_zero (r : string) : headed (String "0" (String "." r)).

(** Case analysis on a decimal digit. *)
Ltac digit_cases d H :=
  let H' := fresh in
  assert (H' : d = 0 ∨ d = 1 ∨ d = 2 ∨ d = 3 ∨ d = 4 ∨ d = 5 ∨ d = 6 ∨ d = 7 ∨
               d = 8 ∨ d = 9) by lia;
  clear H; repeat (destruct H' as [->|H']); [..|subst d].

(** * Properties *)

(** ** Reading the state after a setter *)

Lemma findRow_Some (l : list BudgetRow) (rowId : string) (r : BudgetRow) :
  findRow l rowId = Some r → r ∈ l ∧ r.(id) = rowId.
Proof.
  unfold findRow. intros H. apply find_some in H as [Hin Heq].
  split; [by apply list_elem_of_In | by apply String.eqb_eq].
Qed.

Lemma findRow_unique (l : list BudgetRow) (r : BudgetRow) :
  NoDup (map id l) → r ∈ l → findRow l r.(id) = Some r.
Proof.
  unfold findRow. induction l as [|a l IH]; intros Hnd Hin.
  - by apply elem_of_nil in Hin.
  - simpl in *. apply NoDup_cons in Hnd as [Ha Hnd].
    apply elem_of_cons in Hin as [->|Hin].
    + by rewrite String.eqb_refl.
    + destruct (String.eqb_spec a.(id) r.(id)) as [Heq|_]; [|by apply IH].
      exfalso. apply Ha. rewrite Heq. apply list_elem_of_fmap. by exists r.
Qed.

Lemma getDraftValue_lookup (d : gmap string PartialRow) (rowId : string)
    (o : PartialRow) (field : DraftField) (v : string) :
  d !! rowId = Some o → prop o field = Some v → getDraftValue d rowId field = v.
Proof. unfold getDraftValue. intros -> Hp. simpl. by rewrite Hp. Qed.

Lemma prop_spread (r : BudgetRow) (field : DraftField) :
  prop (spread r) field = Some (getField r field).
Proof. by destruct field. Qed.

Lemma prop_withProp (o : option PartialRow) (field field' : DraftField) (v : string) :
  prop (withProp o field v) field' =
  if decide (field = field') then Some v else prop (default emptyObject o) field'.
Proof. by destruct field, field'. Qed.

Lemma getField_setField (r : BudgetRow) (field field' : DraftField) (v : string) :
  getField (setField r field v) field' =
  if decide (field = field') then v else getField r field'.
Proof. by destruct field, field'. Qed.

Lemma id_setField (r : BudgetRow) (field : DraftField) (v : string) :
  (setField r field v).(id) = r.(id).
Proof. by destruct field. Qed.

(** ** Seeding the drafts *)

Section Seed.
Let seedStep (draftSeed : gmap string PartialRow) (item : BudgetRow) :=
  <[item.(id) := spread item]> draftSeed.

Lemma seed_other (l : list BudgetRow) (acc : gmap string PartialRow) (i : string) :
  i ∉ map id l → foldl seedStep acc l !! i = acc !! i.
Proof.
  revert acc. induction l as [|a l IH]; intros acc Hni; [done|].
  simpl in *. apply not_elem_of_cons in Hni as [Hne Hni].
  rewrite IH by done. unfold seedStep. by rewrite lookup_insert_ne.
Qed.

Lemma seed_unique (l : list BudgetRow) (acc : gmap string PartialRow) (r : BudgetRow) :
  NoDup (map id l) → r ∈ l → foldl seedStep acc l !! r.(id) = Some (spread r).
Proof.
  revert acc. induction l as [|a l IH]; intros acc Hnd Hin.
  - by apply elem_of_nil in Hin.
  - simpl in *. apply NoDup_cons in Hnd as [Ha Hnd].
    apply elem_of_cons in Hin as [->|Hin]; [|by apply IH].
    rewrite seed_other by done. unfold seedStep. by rewrite lookup_insert_eq.
Qed.

(** With a repeated id the entry written last stays. *)
Lemma seed_last (l : list BudgetRow) (r : BudgetRow) :
  seedDrafts (l ++ [r]) !! r.(id) = Some (spread r).
Proof. unfold seedDrafts. rewrite foldl_app. simpl. by rewrite lookup_insert_eq. Qed.
End Seed.

Lemma seedDrafts_unique (l : list BudgetRow) (r : BudgetRow) :
  NoDup (map id l) → r ∈ l → seedDrafts l !! r.(id) = Some (spread r).
Proof. apply seed_unique. Qed.

Lemma map_id_mapBudget (data : list Promx_budgets) :
  map id (map mapBudget data) = map promx_budgetid data.
Proof. induction data as [|b data IH]; [done|]. simpl. by rewrite IH. Qed.

Lemma getField_mapBudget (budget : Promx_budgets) (field : DraftField) :
  getField (mapBudget budget) field = default "" (attributeOf budget field).
Proof. by destruct field. Qed.

(** ** Loading *)

(** C1.  After a load that succeeds, with the fetched records carrying
    distinct ids: the rows are the fetched records in order, every
    attribute that is missing reads as the empty string, and for every row
    and every editable field the draft seeded under the row's id holds the
    row's value, so that what the grid shows for a row is what the row
    holds. *)
Theorem load_success_drafts_mirror_rows
    (st : State) (data : option (list Promx_budgets)) :
  NoDup (map promx_budgetid (default [] data)) →
  let st' := loadBudgets (Fulfilled data) st in
  st'.(rows) = map mapBudget (default [] data) ∧
  (∀ r field, r ∈ st'.(rows) →
     findRow st'.(rows) r.(id) = Some r ∧
     st'.(drafts) !! r.(id) = Some (spread r) ∧
     getDraftValue st'.(drafts) r.(id) field = getField r field) ∧
  (∀ budget field, budget ∈ default [] data →
     getField (mapBudget budget) field = default "" (attributeOf budget field) ∧
     getDraftValue st'.(drafts) budget.(promx_budgetid) field
       = default "" (attributeOf budget field)).
Proof.
  intros Hnd. simpl. set (mapped := map mapBudget (default [] data)).
  assert (Hnd' : NoDup (map id mapped)) by (unfold mapped; by rewrite map_id_mapBudget).
  assert (Hrow : ∀ r field, r ∈ mapped →
            findRow mapped r.(id) = Some r ∧
            seedDrafts mapped !! r.(id) = Some (spread r) ∧
            getDraftValue (seedDrafts mapped) r.(id) field = getField r field).
  { intros r field Hin. split; [by apply findRow_unique|].
    pose proof (seedDrafts_unique mapped r Hnd' Hin) as Hs.
    split; [done|]. eapply getDraftValue_lookup; [done|apply prop_spread]. }
  split; [done|]. split; [done|].
  intros budget field Hin. split; [apply getField_mapBudget|].
  rewrite <- getField_mapBudget.
  apply (Hrow (mapBudget budget) field).
  unfold mapped. apply list_elem_of_fmap. by exists budget.
Qed.

(** Two fetched records, the second with no name and no amount. *)
Lemma load_success_drafts_mirror_rows_witness :
  let b1 := {| promx_budgetid := "b1"; promx_name := Some "Marketing";
               promx_budgetconsumed := Some "150"; ownerid := Some "o1" |} in
  let b2 := {| promx_budgetid := "b2"; promx_name := None;
               promx_budgetconsumed := None; ownerid := Some "o2" |} in
  let st' := loadBudgets (Fulfilled (Some [b1; b2])) initialState in
  NoDup (map promx_budgetid [b1; b2]) ∧
  getDraftValue st'.(drafts) "b2" FName = "" ∧
  getDraftValue st'.(drafts) "b1" FBudgetConsumed = "150".
Proof.
  intros b1 b2 st'.
  assert (Hnd : NoDup (map promx_budgetid (default [] (Some [b1; b2])))).
  { simpl. apply (bool_decide_unpack _). vm_compute. exact I. }
  split; [exact Hnd|].
  destruct (load_success_drafts_mirror_rows initialState (Some [b1; b2]) Hnd)
    as (_ & _ & H).
  split.
  - assert (Hin : b2 ∈ default [] (Some [b1; b2])) by (simpl; repeat constructor).
    exact (proj2 (H b2 FName Hin)).
  - assert (Hin : b1 ∈ default [] (Some [b1; b2])) by (simpl; repeat constructor).
    exact (proj2 (H b1 FBudgetConsumed Hin)).
Defined.

(** With a repeated id the two rows share one draft, seeded from the
    later record. *)
Example load_repeated_id :
  let data :=
    [ {| promx_budgetid := "b1"; promx_name := Some "first";
         promx_budgetconsumed := None; ownerid := None |};
      {| promx_budgetid := "b1"; promx_name := Some "second";
         promx_budgetconsumed := None; ownerid := None |} ] in
  let st' := loadBudgets (Fulfilled (Some data)) initialState in
  name <$> findRow st'.(rows) "b1" = Some "first" ∧
  getDraftValue st'.(drafts) "b1" FName = "second".
Proof. split; reflexivity. Qed.

(** C7.  A load that fails leaves the rows and the drafts as they were and
    records a grid-level message, the failure's own or the fixed one.
    Every load clears the load error before the request goes out, and
    clears the loading flag once the request has settled, whatever the
    outcome and whatever was dispatched in between. *)
Theorem load_failure_keeps_rows_and_drafts (st : State) (error : Thrown) :
  let st' := loadBudgets (Rejected error) st in
  (st'.(rows) = st.(rows) ∧ st'.(drafts) = st.(drafts)) ∧
  (st'.(loadError) = Some (loadErrorMessage error) ∧
   (∀ message, error = ThrownError message → st'.(loadError) = Some message) ∧
   (error = ThrownOther → st'.(loadError) = Some "Unable to load budgets.")) ∧
  ((loadBegin st).(loadError) = None ∧ (loadBegin st).(loading) = true ∧
   (loadBegin st).(rows) = st.(rows) ∧ (loadBegin st).(drafts) = st.(drafts)) ∧
  (∀ result, (loadBudgets result st).(loading) = false) ∧
  (∀ result st0, (loadSettle st0 result).(loading) = false) ∧
  (∀ st0, (loadSettle st0 (Rejected error)).(rows) = st0.(rows) ∧
          (loadSettle st0 (Rejected error)).(drafts) = st0.(drafts)).
Proof.
  simpl. repeat split.
  - by intros message ->.
  - by intros ->.
Qed.

(** A refresh that times out after a first load that brought one row. *)
Lemma load_failure_keeps_rows_and_drafts_witness :
  let b1 := {| promx_budgetid := "b1"; promx_name := Some "Marketing";
               promx_budgetconsumed := Some "150"; ownerid := Some "o1" |} in
  let st := loadBudgets (Fulfilled (Some [b1])) initialState in
  let st' := loadBudgets (Rejected (ThrownError "network timeout")) st in
  st'.(rows) = [mapBudget b1] ∧ st'.(loadError) = Some "network timeout" ∧
  st'.(loading) = false.
Proof.
  intros b1 st st'.
  destruct (load_failure_keeps_rows_and_drafts st (ThrownError "network timeout"))
    as ((Hrows & _) & (_ & Hmsg & _) & _ & Hloading & _).
  split; [exact Hrows|]. split; [exact (Hmsg "network timeout" eq_refl)|].
  exact (Hloading (Rejected (ThrownError "network timeout"))).
Defined.

(** ** Editing a draft *)

Lemma withProp_again (o : option PartialRow) (field : DraftField) (value : string) :
  withProp (Some (withProp o field value)) field value = withProp o field value.
Proof. by destruct field. Qed.

Lemma handleDraftChange_twice (rowId : string) (field : DraftField) (value : string)
    (st : State) :
  handleDraftChange rowId field value (handleDraftChange rowId field value st)
  = handleDraftChange rowId field value st.
Proof.
  unfold handleDraftChange, setDrafts. simpl. f_equal.
  by rewrite lookup_insert_eq, withProp_again, insert_insert_eq.
Qed.

Lemma draftProp_insert_withProp (d : gmap string PartialRow) (rowId rowId' : string)
    (field field' : DraftField) (value : string) :
  draftProp (<[rowId := withProp (d !! rowId) field value]> d) rowId' field' =
  if decide ((rowId', field') = (rowId, field)) then Some value
  else draftProp d rowId' field'.
Proof.
  unfold draftProp. destruct (decide (rowId = rowId')) as [<-|Hne].
  - rewrite lookup_insert_eq. simpl. rewrite prop_withProp.
    destruct (decide (field = field')) as [<-|Hf].
    + by rewrite decide_True.
    + rewrite decide_False by congruence. by destruct (d !! rowId), field'.
  - rewrite lookup_insert_ne by done. by rewrite decide_False by congruence.
Qed.

Lemma handleDraftChange_iter (rowId : string) (field : DraftField) (value : string)
    (st : State) (n : nat) :
  Nat.iter (S n) (handleDraftChange rowId field value) st
  = handleDraftChange rowId field value st.
Proof.
  induction n as [|n IH]; [done|].
  rewrite Nat.iter_succ, IH. apply handleDraftChange_twice.
Qed.

Lemma run_repeat_draftChange (rowId : string) (field : DraftField) (value : string)
    (n : nat) (st : State) :
  run st (repeat (EvDraftChange rowId field value) (S n))
  = (handleDraftChange rowId field value st, []).
Proof.
  revert st. induction n as [|n IH]; intros st; [done|].
  change (repeat (EvDraftChange rowId field value) (S (S n)))
    with (EvDraftChange rowId field value
            :: repeat (EvDraftChange rowId field value) (S n)).
  cbn [run dispatch]. rewrite IH.
  by rewrite handleDraftChange_twice.
Qed.

(** C9.  [handleDraftChange] writes the value at its own draft key and
    changes nothing else: every other draft property, the rows, the saving
    flags, the field errors and the load state stay as they were; it
    issues no request; and applying it again with the same arguments, any
    number of times, gives the state reached after the first. *)
Theorem handleDraftChange_only_draft_idempotent
    (rowId : string) (field : DraftField) (value : string) (st : State) :
  let st' := handleDraftChange rowId field value st in
  (draftProp st'.(drafts) rowId field = Some value ∧
   getDraftValue st'.(drafts) rowId field = value) ∧
  (∀ rowId' field', (rowId', field') ≠ (rowId, field) →
     draftProp st'.(drafts) rowId' field' = draftProp st.(drafts) rowId' field') ∧
  (∀ rowId', rowId' ≠ rowId → st'.(drafts) !! rowId' = st.(drafts) !! rowId') ∧
  (st'.(rows) = st.(rows) ∧ st'.(saving) = st.(saving) ∧
   st'.(fieldErrors) = st.(fieldErrors) ∧ st'.(loading) = st.(loading) ∧
   st'.(loadError) = st.(loadError)) ∧
  dispatch st (EvDraftChange rowId field value) = (st', []) ∧
  handleDraftChange rowId field value st' = st' ∧
  (∀ n, Nat.iter (S n) (handleDraftChange rowId field value) st = st') ∧
  (∀ n, run st (repeat (EvDraftChange rowId field value) (S n)) = (st', [])).
Proof.
  intros st'. subst st'.
  pose proof (draftProp_insert_withProp st.(drafts) rowId) as Hprop.
  split; [|split; [|split; [|split; [|split; [|split; [|split]]]]]].
  - unfold getDraftValue, handleDraftChange, setDrafts. cbn [drafts].
    fold (draftProp (<[rowId := withProp (st.(drafts) !! rowId) field value]> st.(drafts))
            rowId field).
    rewrite Hprop, decide_True by done. done.
  - intros rowId' field' Hne. unfold handleDraftChange, setDrafts. cbn [drafts].
    by rewrite Hprop, decide_False.
  - intros rowId' Hne. unfold handleDraftChange, setDrafts. cbn [drafts].
    by rewrite lookup_insert_ne.
  - done.
  - done.
  - apply handleDraftChange_twice.
  - intros n. apply handleDraftChange_iter.
  - intros n. apply run_repeat_draftChange.
Qed.

(** Two keystrokes in the name field of a loaded row. *)
Lemma handleDraftChange_only_draft_idempotent_witness :
  let st' := handleDraftChange "b1" FName "Marketing Q3" exampleState in
  getDraftValue st'.(drafts) "b1" FName = "Marketing Q3" ∧
  getDraftValue st'.(drafts) "b1" FBudgetConsumed = "150" ∧
  name <$> findRow st'.(rows) "b1" = Some "Marketing" ∧
  handleDraftChange "b1" FName "Marketing Q3" st' = st'.
Proof.
  intros st'.
  destruct (handleDraftChange_only_draft_idempotent "b1" FName "Marketing Q3" exampleState)
    as ((_ & Hset) & _ & _ & (Hrows & _) & _ & Hidem & _).
  subst st'.
  split; [exact Hset|]. split; [reflexivity|]. split; [by rewrite Hrows|]. exact Hidem.
Defined.

(** ** Field keys *)

Lemma list_ascii_of_append (s t : string) :
  String.list_ascii_of_string (s +:+ t)
  = (String.list_ascii_of_string s ++ String.list_ascii_of_string t)%list.
Proof. induction s as [|c s IH]; [done|]. simpl. by rewrite IH. Qed.

Lemma list_ascii_of_string_inj (s t : string) :
  String.list_ascii_of_string s = String.list_ascii_of_string t → s = t.
Proof.
  intros H. rewrite <- (String.string_of_list_ascii_of_string s),
              <- (String.string_of_list_ascii_of_string t). by rewrite H.
Qed.

(** No field name ends another one, so the key determines the row id and
    the field. *)
Lemma getErrorKey_inj (rowId rowId' : string) (field field' : DraftField) :
  getErrorKey rowId field = getErrorKey rowId' field' → rowId = rowId' ∧ field = field'.
Proof.
  unfold getErrorKey. intros H.
  apply (f_equal String.list_ascii_of_string) in H.
  rewrite !list_ascii_of_append in H.
  destruct field, field';
    try (apply app_inv_tail in H; apply list_ascii_of_string_inj in H; by split);
    exfalso; apply (f_equal (@List.rev ascii)) in H;
    rewrite !rev_app_distr in H; simpl in H; discriminate H.
Qed.

Lemma getErrorKey_ne (rowId rowId' : string) (field field' : DraftField) :
  (rowId', field') ≠ (rowId, field) → getErrorKey rowId' field' ≠ getErrorKey rowId field.
Proof. intros Hne H. apply getErrorKey_inj in H as [-> ->]. by apply Hne. Qed.

(** ** The built-ins on the inputs of the examples *)

Lemma trimStart_allWhiteSpace (s : string) :
  Js.allWhiteSpace s = true → Js.trimStart s = "".
Proof.
  induction s as [|c s IH]; [done|]. simpl.
  intros [Hc Hs]%andb_true_iff. rewrite Hc. by apply IH.
Qed.

Lemma trim_allWhiteSpace (s : string) : Js.allWhiteSpace s = true → Js.trim s = "".
Proof. intros H. unfold Js.trim. by rewrite trimStart_allWhiteSpace. Qed.

Lemma headOk_trimStart (s : string) : Js.headOk (Js.trimStart s) = true.
Proof.
  induction s as [|c s IH]; [done|]. simpl.
  destruct (Js.isWhiteSpace c) eqn:Hc; [done|]. simpl. by rewrite Hc.
Qed.

Lemma trimStart_headOk (s : string) : Js.headOk s = true → Js.trimStart s = s.
Proof. destruct s as [|c s]; [done|]. simpl. by intros ->%negb_true_iff. Qed.

Lemma headOk_trimEnd (s : string) : Js.headOk s = true → Js.headOk (Js.trimEnd s) = true.
Proof.
  destruct s as [|c s]; [done|]. simpl. intros Hc.
  destruct (Js.trimEnd s); [|done].
  apply negb_true_iff in Hc. rewrite Hc. simpl. by rewrite Hc.
Qed.

Lemma trimEnd_trimEnd (s : string) : Js.trimEnd (Js.trimEnd s) = Js.trimEnd s.
Proof.
  induction s as [|c s IH]; [done|]. simpl.
  destruct (Js.trimEnd s) as [|d u] eqn:Hu.
  - destruct (Js.isWhiteSpace c) eqn:Hc; [done|]. simpl. by rewrite Hc.
  - change (Js.trimEnd (String c (String d u))) with
      (match Js.trimEnd (String d u) with
       | EmptyString => if Js.isWhiteSpace c then EmptyString else String c EmptyString
       | t => String c t
       end).
    by rewrite IH.
Qed.

(** [trim] leaves nothing for a second [trim], so [Number], which trims
    its argument, reads a trimmed string as it reads the string. *)
Lemma trim_trim (s : string) : Js.trim (Js.trim s) = Js.trim s.
Proof.
  unfold Js.trim.
  rewrite (trimStart_headOk (Js.trimEnd (Js.trimStart s))).
  - apply trimEnd_trimEnd.
  - apply headOk_trimEnd, headOk_trimStart.
Qed.

Lemma Number_trim (s : string) : Js.Number (Js.trim s) = Js.Number s.
Proof. unfold Js.Number. by rewrite trim_trim. Qed.

Lemma strictEquals_same (x y : Js.number) :
  Js.strictEquals x y = true →
  Js.toString x = Js.toString y ∧ Js.isFinite x = Js.isFinite y.
Proof.
  unfold Js.strictEquals, SFeqb, SFcompare. intros H.
  destruct x as [[]|[]| |[] mx ex], y as [[]|[]| |[] my ey];
    cbv beta iota in H; try discriminate H; try (split; reflexivity);
    change (Pos.compare_cont Eq mx my) with (Pos.compare mx my) in H;
    destruct (Z.compare_spec ex ey) as [->| |]; try discriminate H;
    destruct (Pos.compare_spec mx my) as [->| |]; try discriminate H;
    split; reflexivity.
Qed.

Example Number_empty : Js.Number "" = Js.pos_zero ∧ Js.toString Js.pos_zero = "0".
Proof. split; reflexivity. Qed.

Example Number_abc : Js.isFinite (Js.Number "abc") = false.
Proof. reflexivity. Qed.

Example Number_42_5 :
  Js.Number "42.5" = S754_finite false 5981343255101440 (-47) ∧
  Js.Number "42.50" = Js.Number "42.5" ∧
  Js.toString (Js.Number "42.50") = "42.5".
Proof. repeat split; vm_compute; reflexivity. Qed.

Example Number_150 : Js.toString (Js.Number "150") = "150".
Proof. vm_compute. reflexivity. Qed.

(** ** Rounding to binary64

    [roundDecimal] goes through [binary_normalize] and [SFdiv]; both end in
    [binary_round_aux].  Its result is in canonical form, and it returns a
    value in canonical form unchanged. *)

(** The exponent of a binary64 value whose leading bit has weight [2 ^ (e - 1)]. *)
Lemma fexp_eq (e : Z) : fexp Js.prec Js.emax e = Z.max (e - 53) (-1074).
Proof. reflexivity. Qed.

(** [Zdigits2] counts the bits of a mantissa. *)
Lemma Zdigits2_log2 (m : Z) : 0 < m → Zdigits2 m = Z.log2 m + 1.
Proof.
  destruct m as [|p|p]; try lia. intros _. simpl.
  induction p as [p IH|p IH|]; simpl; try reflexivity.
  - destruct p; simpl in *; lia.
  - destruct p; simpl in *; lia.
Qed.

Lemma Zdigits2_bounds (m : Z) :
  0 < m → 2 ^ (Zdigits2 m - 1) ≤ m < 2 ^ Zdigits2 m.
Proof.
  intros Hm. rewrite Zdigits2_log2 by done.
  replace (Z.log2 m + 1 - 1) with (Z.log2 m) by lia.
  replace (Z.log2 m + 1) with (Z.succ (Z.log2 m)) by lia.
  by apply Z.log2_spec.
Qed.

Lemma Zdigits2_unique (m d : Z) : 2 ^ (d - 1) ≤ m < 2 ^ d → 0 < m → Zdigits2 m = d.
Proof.
  intros H Hm. rewrite Zdigits2_log2 by done.
  assert (0 < d).
  { destruct (Z.le_gt_cases d 0) as [Hd|]; [|done].
    assert (2 ^ d ≤ 2 ^ 0) by (apply Z.pow_le_mono_r; lia). simpl in *. lia. }
  rewrite (Z.log2_unique m (d - 1)); [lia|lia|].
  replace (Z.succ (d - 1)) with d by lia. done.
Qed.

Lemma Zdigits2_nonneg (m : Z) : 0 ≤ Zdigits2 m.
Proof. destruct m; simpl; lia. Qed.

Lemma Zdigits2_mul_pow2 (m j : Z) :
  0 < m → 0 ≤ j → Zdigits2 (m * 2 ^ j) = Zdigits2 m + j.
Proof.
  intros Hm Hj. rewrite !Zdigits2_log2; [|done|].
  - rewrite Z.log2_mul_pow2 by lia. lia.
  - assert (0 < 2 ^ j) by (apply Z.pow_pos_nonneg; lia). lia.
Qed.

(** shr *)
Lemma shr_1_m (mrs : shr_record) : 0 ≤ shr_m mrs → shr_m (shr_1 mrs) = shr_m mrs / 2.
Proof.
  destruct mrs as [m r s]. simpl. intros Hm.
  rewrite <- Z.div2_div. destruct m as [|[p|p|]|p]; try reflexivity; lia.
Qed.

Lemma pow2_xO (p : positive) : 2 ^ Zpos p~0 = 2 ^ Zpos p * 2 ^ Zpos p.
Proof. rewrite <- Z.pow_add_r by lia. f_equal. lia. Qed.

Lemma pow2_xI (p : positive) : 2 ^ Zpos p~1 = 2 * (2 ^ Zpos p * 2 ^ Zpos p).
Proof.
  rewrite <- Z.pow_add_r by lia. rewrite <- (Z.pow_succ_r 2) by lia. f_equal. lia.
Qed.

Lemma iter_shr_m (p : positive) (mrs : shr_record) :
  0 ≤ shr_m mrs → shr_m (SpecFloat.iter_pos shr_1 p mrs) = shr_m mrs / 2 ^ Zpos p.
Proof.
  revert mrs. induction p as [p IH|p IH|]; intros mrs Hm; cbn [SpecFloat.iter_pos].
  - assert (Hp : 0 < 2 ^ Zpos p) by (apply Z.pow_pos_nonneg; lia).
    assert (H1 : 0 ≤ shr_m (shr_1 mrs)).
    { rewrite shr_1_m by done. apply Z.div_pos; lia. }
    assert (H2 : 0 ≤ shr_m (SpecFloat.iter_pos shr_1 p (shr_1 mrs))).
    { rewrite IH by done. by apply Z.div_pos. }
    rewrite IH, IH, shr_1_m by done.
    rewrite !Z.div_div by lia. by rewrite pow2_xI, Z.mul_assoc.
  - assert (Hp : 0 < 2 ^ Zpos p) by (apply Z.pow_pos_nonneg; lia).
    assert (H2 : 0 ≤ shr_m (SpecFloat.iter_pos shr_1 p mrs)).
    { rewrite IH by done. by apply Z.div_pos. }
    rewrite IH, IH by done.
    rewrite !Z.div_div by lia. by rewrite pow2_xO.
  - rewrite shr_1_m by done. reflexivity.
Qed.

Lemma shr_1_exact (a : Z) :
  0 ≤ a → shr_1 (Build_shr_record (2 * a) false false) = Build_shr_record a false false.
Proof.
  intros Ha. destruct a as [|p|p]; try reflexivity; lia.
Qed.

Lemma iter_shr_exact (p : positive) (a : Z) :
  0 ≤ a →
  SpecFloat.iter_pos shr_1 p (Build_shr_record (a * 2 ^ Zpos p) false false)
  = Build_shr_record a false false.
Proof.
  revert a. induction p as [p IH|p IH|]; intros a Ha.
  - assert (Hp : 0 < 2 ^ Zpos p) by (apply Z.pow_pos_nonneg; lia).
    replace (a * 2 ^ Zpos p~1) with (2 * (a * 2 ^ Zpos p * 2 ^ Zpos p))
      by (rewrite pow2_xI; lia).
    cbn [SpecFloat.iter_pos].
    rewrite shr_1_exact by nia. rewrite IH by nia. by rewrite IH.
  - assert (Hp : 0 < 2 ^ Zpos p) by (apply Z.pow_pos_nonneg; lia).
    replace (a * 2 ^ Zpos p~0) with (a * 2 ^ Zpos p * 2 ^ Zpos p)
      by (rewrite pow2_xO; lia).
    cbn [SpecFloat.iter_pos].
    rewrite IH by nia. by rewrite IH.
  - replace (a * 2 ^ 1) with (2 * a) by lia. cbn [SpecFloat.iter_pos].
    by apply shr_1_exact.
Qed.

Lemma pow2_pos (a : Z) : 0 ≤ a → 0 < 2 ^ a.
Proof. intros. apply Z.pow_pos_nonneg; lia. Qed.

Lemma pow2_add (a b : Z) : 0 ≤ a → 0 ≤ b → 2 ^ (a + b) = 2 ^ a * 2 ^ b.
Proof. intros. by apply Z.pow_add_r. Qed.

Lemma pow2_le (a b : Z) : 0 ≤ a ≤ b → 2 ^ a ≤ 2 ^ b.
Proof. intros. apply Z.pow_le_mono_r; lia. Qed.

Lemma pow2_lt_inv (a b : Z) : 0 ≤ a → 0 ≤ b → 2 ^ a < 2 ^ b → a < b.
Proof. intros Ha Hb H. apply (Z.pow_lt_mono_r_iff 2); lia. Qed.

Lemma shr_record_of_loc_m (m : Z) (l : location) : shr_m (shr_record_of_loc m l) = m.
Proof. by destruct l as [|[]]. Qed.

(** The shift [shr_fexp] applies, and the mantissa it leaves. *)
Lemma shr_fexp_spec (m ex : Z) (l : location) :
  0 ≤ m → ex ≤ fexp Js.prec Js.emax (Zdigits2 m + ex) →
  ∃ mrs, shr_fexp Js.prec Js.emax m ex l = (mrs, fexp Js.prec Js.emax (Zdigits2 m + ex)) ∧
         shr_m mrs = m / 2 ^ (fexp Js.prec Js.emax (Zdigits2 m + ex) - ex).
Proof.
  intros Hm He. unfold shr_fexp, shr.
  destruct (fexp Js.prec Js.emax (Zdigits2 m + ex) - ex) as [|p|p] eqn:Hn.
  - eexists. split; [f_equal; lia|]. rewrite shr_record_of_loc_m. simpl.
    by rewrite Z.div_1_r.
  - eexists. split; [f_equal; lia|]. rewrite iter_shr_m.
    + by rewrite shr_record_of_loc_m.
    + by rewrite shr_record_of_loc_m.
  - lia.
Qed.

(** Shifting out zero bits is exact. *)
Lemma shr_fexp_exact (a ex j : Z) :
  0 ≤ a → 0 ≤ j → fexp Js.prec Js.emax (Zdigits2 (a * 2 ^ j) + ex) = ex + j →
  shr_fexp Js.prec Js.emax (a * 2 ^ j) ex loc_Exact
  = (Build_shr_record a false false, ex + j).
Proof.
  intros Ha Hj He. unfold shr_fexp, shr. rewrite He.
  replace (ex + j - ex) with j by lia. cbn [shr_record_of_loc].
  destruct j as [|p|p]; [|by rewrite iter_shr_exact|lia].
  f_equal; [f_equal|]; lia.
Qed.

Lemma round_nearest_even_cases (m : Z) (l : location) :
  round_nearest_even m l = m ∨ round_nearest_even m l = m + 1.
Proof. destruct l as [|[]]; simpl; auto. destruct (Z.even m); auto. Qed.

(** The mantissa after the first shift. *)
Lemma first_shift_range (mx ex : Z) :
  0 ≤ mx → ex ≤ fexp Js.prec Js.emax (Zdigits2 mx + ex) →
  let e1 := fexp Js.prec Js.emax (Zdigits2 mx + ex) in
  let m1 := mx / 2 ^ (e1 - ex) in
  0 ≤ m1 < 2 ^ 53 ∧ (2 ^ 52 ≤ m1 ∨ e1 = -1074) ∧ -1074 ≤ e1.
Proof.
  intros Hmx He e1 m1. subst e1 m1. rewrite fexp_eq in *.
  set (D := Zdigits2 mx) in *.
  set (e1 := Z.max (D + ex - 53) (-1074)) in *.
  assert (Hn : 0 ≤ e1 - ex) by lia.
  pose proof (pow2_pos (e1 - ex) Hn) as Hp.
  destruct (Z.eq_dec mx 0) as [->|Hne].
  - rewrite Z.div_0_l by lia. subst D e1. simpl in *. lia.
  - assert (Hpos : 0 < mx) by lia.
    destruct (Zdigits2_bounds mx Hpos) as [Hlo Hhi]. fold D in Hlo, Hhi.
    assert (HD : 0 < D).
    { subst D. rewrite Zdigits2_log2 by done. pose proof (Z.log2_nonneg mx). lia. }
    split; [split|split].
    + apply Z.div_pos; lia.
    + apply Z.div_lt_upper_bound; [lia|].
      rewrite <- pow2_add by lia.
      eapply Z.lt_le_trans; [exact Hhi|]. apply pow2_le. lia.
    + destruct (Z.max_spec (D + ex - 53) (-1074)) as [[Hlt Heq]|[Hle Heq]];
        fold e1 in Heq; [by right|left].
      apply Z.div_le_lower_bound; [lia|].
      rewrite Z.mul_comm, <- pow2_add by lia.
      eapply Z.le_trans; [|exact Hlo]. apply pow2_le. lia.
    + lia.
Qed.

Lemma Zdigits2_53 (m : Z) : 2 ^ 52 ≤ m < 2 ^ 53 → Zdigits2 m = 53.
Proof. intros H. apply Zdigits2_unique; [done|]. assert (0 < 2 ^ 52) by done. lia. Qed.

Lemma Zdigits2_small (m : Z) : 0 < m < 2 ^ 52 → 0 < Zdigits2 m ≤ 52.
Proof.
  intros [Hm Hlt]. destruct (Zdigits2_bounds m Hm) as [Hlo _].
  assert (HD : 0 < Zdigits2 m).
  { rewrite Zdigits2_log2 by done. pose proof (Z.log2_nonneg m). lia. }
  split; [done|].
  assert (Zdigits2 m - 1 < 52); [|lia].
  apply pow2_lt_inv; lia.
Qed.

(** What [binary_round_aux] returns is in canonical form. *)
Lemma binary_round_aux_valid (sx : bool) (mx ex : Z) (lx : location) :
  0 ≤ mx → ex ≤ fexp Js.prec Js.emax (Zdigits2 mx + ex) →
  valid_binary Js.prec Js.emax (binary_round_aux Js.prec Js.emax sx mx ex lx) = true.
Proof.
  intros Hmx He. unfold binary_round_aux.
  destruct (shr_fexp_spec mx ex lx Hmx He) as (mrs1 & -> & Hm1).
  destruct (first_shift_range mx ex Hmx He) as (Hr1 & Hnorm & Hemin).
  rewrite <- Hm1 in Hr1, Hnorm.
  set (e1 := fexp Js.prec Js.emax (Zdigits2 mx + ex)) in *.
  set (m2 := round_nearest_even (shr_m mrs1) (loc_of_shr_record mrs1)).
  assert (Hm2 : m2 = shr_m mrs1 ∨ m2 = shr_m mrs1 + 1)
    by apply round_nearest_even_cases.
  assert (Hm2r : 0 ≤ m2 ≤ 2 ^ 53) by lia.
  assert (Hfe : fexp Js.prec Js.emax (Zdigits2 m2 + e1)
                = if decide (m2 = 2 ^ 53) then e1 + 1 else e1).
  { rewrite fexp_eq. case_decide as H53.
    - rewrite H53. change (Zdigits2 (2 ^ 53)) with 54. lia.
    - destruct (Z.eq_dec m2 0) as [->|H0]; [simpl; lia|].
      destruct (Z.le_gt_cases (2 ^ 52) m2) as [Hge|Hlt].
      + rewrite Zdigits2_53 by lia. lia.
      + pose proof (Zdigits2_small m2 ltac:(lia)). lia. }
  assert (He2 : e1 ≤ fexp Js.prec Js.emax (Zdigits2 m2 + e1)).
  { rewrite Hfe. case_decide; lia. }
  destruct (shr_fexp_spec m2 e1 loc_Exact (proj1 Hm2r) He2) as (mrs2 & -> & Hm3).
  rewrite Hfe in Hm3 |- *.
  destruct (shr_m mrs2) as [|m3|m3] eqn:Hs; [done| |done].
  case_decide as H53.
  - replace (e1 + 1 - e1) with 1 in Hm3 by lia. rewrite H53 in Hm3.
    change (2 ^ 53 / 2 ^ 1) with (2 ^ 52) in Hm3.
    destruct (e1 + 1 <=? Js.emax - Js.prec) eqn:Hle; [|done].
    simpl. unfold bounded, canonical_mantissa. rewrite Hle, andb_true_r.
    apply Z.eqb_eq. change (Z.pos (digits2_pos m3)) with (Zdigits2 (Z.pos m3)).
    rewrite Hm3. change (Zdigits2 (2 ^ 52)) with 53. rewrite fexp_eq. lia.
  - replace (e1 - e1) with 0 in Hm3 by lia. rewrite Z.div_1_r in Hm3.
    destruct (e1 <=? Js.emax - Js.prec) eqn:Hle; [|done].
    simpl. unfold bounded, canonical_mantissa. rewrite Hle, andb_true_r.
    apply Z.eqb_eq. change (Z.pos (digits2_pos m3)) with (Zdigits2 (Z.pos m3)).
    rewrite Hm3. rewrite fexp_eq.
    destruct (Z.le_gt_cases (2 ^ 52) m2) as [Hge|Hlt].
    + rewrite Zdigits2_53 by lia. lia.
    + pose proof (Zdigits2_small m2 ltac:(lia)). lia.
Qed.

(** [bounded]: the exponent is the one [fexp] gives, and is in range. *)
Lemma bounded_spec (M : positive) (E : Z) :
  bounded Js.prec Js.emax M E = true ↔
  fexp Js.prec Js.emax (Zdigits2 (Zpos M) + E) = E ∧ E ≤ 971.
Proof.
  unfold bounded, canonical_mantissa. rewrite andb_true_iff, Z.eqb_eq, Z.leb_le.
  change (Js.emax - Js.prec) with 971. reflexivity.
Qed.

(** A value in canonical form, given with spare low bits, rounds to itself. *)
Lemma binary_round_aux_exact (sx : bool) (M : positive) (E ex : Z) :
  bounded Js.prec Js.emax M E = true → ex ≤ E →
  binary_round_aux Js.prec Js.emax sx (Zpos M * 2 ^ (E - ex)) ex loc_Exact
  = S754_finite sx M E.
Proof.
  intros [Hc Hle]%bounded_spec Hex. unfold binary_round_aux.
  rewrite (shr_fexp_exact (Zpos M) ex (E - ex)); [|lia|lia|].
  - cbn [shr_m loc_of_shr_record round_nearest_even].
    replace (ex + (E - ex)) with E by lia.
    unfold shr_fexp, shr. rewrite Hc. replace (E - E) with 0 by lia.
    cbn [shr_record_of_loc shr_m].
    change (Js.emax - Js.prec) with 971. by rewrite (proj2 (Z.leb_le E 971) Hle).
  - rewrite Zdigits2_mul_pow2 by lia.
    replace (Zdigits2 (Z.pos M) + (E - ex) + ex) with (Zdigits2 (Z.pos M) + E) by lia.
    lia.
Qed.

(** [binary_round] first aligns the mantissa on the exponent of the result. *)
Lemma shl_align_spec (mx : positive) (ex ex' : Z) :
  let '(mz, ez) := shl_align mx ex ex' in
  ez = Z.min ex ex' ∧ Zpos mz = Zpos mx * 2 ^ (ex - ez).
Proof.
  unfold shl_align. destruct (ex' - ex) as [|d|d] eqn:Hd.
  - split; [lia|]. replace (ex - ex) with 0 by lia. lia.
  - split; [lia|]. replace (ex - ex) with 0 by lia. lia.
  - split; [lia|]. change (Pos.iter xO mx d) with (shift_pos d mx).
    rewrite shift_pos_correct, Z.pow_pos_fold.
    replace (ex - ex') with (Z.pos d) by lia. lia.
Qed.

Lemma binary_round_pre (mx : positive) (ex : Z) :
  let '(mz, ez) := shl_align mx ex (fexp Js.prec Js.emax (Zpos (digits2_pos mx) + ex)) in
  ez ≤ fexp Js.prec Js.emax (Zdigits2 (Zpos mz) + ez).
Proof.
  pose proof (shl_align_spec mx ex (fexp Js.prec Js.emax (Zpos (digits2_pos mx) + ex)))
    as H.
  destruct (shl_align _ _ _) as [mz ez]. destruct H as [He Hm].
  rewrite Hm, Zdigits2_mul_pow2 by lia.
  change (Zdigits2 (Z.pos mx)) with (Zpos (digits2_pos mx)).
  replace (Z.pos (digits2_pos mx) + (ex - ez) + ez)
    with (Z.pos (digits2_pos mx) + ex) by lia.
  lia.
Qed.

Lemma binary_round_valid (sx : bool) (mx : positive) (ex : Z) :
  valid_binary Js.prec Js.emax (binary_round Js.prec Js.emax sx mx ex) = true.
Proof.
  unfold binary_round. pose proof (binary_round_pre mx ex) as H.
  destruct (shl_align _ _ _) as [mz ez]. apply binary_round_aux_valid; [lia|done].
Qed.

Lemma binary_round_aux_opp (mx ex : Z) (lx : location) :
  binary_round_aux Js.prec Js.emax true mx ex lx
  = SFopp (binary_round_aux Js.prec Js.emax false mx ex lx).
Proof.
  unfold binary_round_aux. destruct (shr_fexp _ _ mx ex lx) as [mrs e1].
  destruct (shr_fexp _ _ _ e1 loc_Exact) as [mrs2 e2].
  destruct (shr_m mrs2); try reflexivity. by destruct (e2 <=? _).
Qed.

Lemma binary_round_opp (mx : positive) (ex : Z) :
  binary_round Js.prec Js.emax true mx ex
  = SFopp (binary_round Js.prec Js.emax false mx ex).
Proof.
  unfold binary_round. destruct (shl_align _ _ _) as [mz ez].
  apply binary_round_aux_opp.
Qed.

(** SFdiv on two positive integers. *)
Lemma new_location_0 (d : Z) : new_location d 0 = loc_Exact.
Proof. unfold new_location, new_location_even, new_location_odd. by destruct (Z.even d). Qed.

(** [SFdiv] on two integers: the quotient [binary_round_aux] is given. *)
Lemma div_core_spec (a b : positive) :
  let d1 := Zdigits2 (Zpos a) in
  let d2 := Zdigits2 (Zpos b) in
  let e' := Z.min (fexp Js.prec Js.emax (d1 - d2)) 0 in
  SFdiv_core_binary Js.prec Js.emax (Zpos a) 0 (Zpos b) 0
  = (Zpos a * 2 ^ (- e') / Zpos b, e',
     new_location (Zpos b) ((Zpos a * 2 ^ (- e')) mod Zpos b)).
Proof.
  intros d1 d2 e'. unfold SFdiv_core_binary.
  replace (Zdigits2 (Z.pos a) + 0 - (Zdigits2 (Z.pos b) + 0)) with (d1 - d2) by lia.
  replace (0 - 0) with 0 by lia. fold e'.
  assert (Hm : match 0 - e' with
               | 0 => Z.pos a
               | Z.pos _ => Z.shiftl (Z.pos a) (0 - e')
               | Z.neg _ => 0
               end = Z.pos a * 2 ^ (- e')).
  { destruct (0 - e') as [|s|s] eqn:Hs.
    - replace (- e') with 0 by lia. lia.
    - rewrite Z.shiftl_mul_pow2 by lia. f_equal. f_equal. lia.
    - subst e'. lia. }
  rewrite Hm. unfold Z.div, Z.modulo.
  by destruct (Z.div_eucl (Z.pos a * 2 ^ (- e')) (Z.pos b)).
Qed.

Lemma log2_ge (a t : Z) : 0 < a → 0 ≤ t → 2 ^ t ≤ a → t + 1 ≤ Zdigits2 a.
Proof.
  intros Ha Ht H. rewrite Zdigits2_log2 by done.
  apply Z.log2_le_pow2 in H; lia.
Qed.

Lemma div_core_pre (a b : positive) :
  let d1 := Zdigits2 (Zpos a) in
  let d2 := Zdigits2 (Zpos b) in
  let e' := Z.min (fexp Js.prec Js.emax (d1 - d2)) 0 in
  let q := Zpos a * 2 ^ (- e') / Zpos b in
  0 ≤ q ∧ e' ≤ fexp Js.prec Js.emax (Zdigits2 q + e').
Proof.
  intros d1 d2 e' q.
  assert (He' : e' ≤ 0) by (subst e'; lia).
  pose proof (pow2_pos (- e') ltac:(lia)) as Hp.
  assert (Hq : 0 ≤ q) by (apply Z.div_pos; lia).
  split; [done|].
  destruct (Zdigits2_bounds (Zpos a) ltac:(lia)) as [Ha1 Ha2].
  destruct (Zdigits2_bounds (Zpos b) ltac:(lia)) as [Hb1 Hb2].
  fold d1 in Ha1, Ha2. fold d2 in Hb1, Hb2.
  assert (Hd1 : 0 < d1) by (subst d1; simpl; lia).
  assert (Hd2 : 0 < d2) by (subst d2; simpl; lia).
  assert (Hkey : d1 - d2 ≤ Zdigits2 q + e' ∨ e' = -1074).
  { destruct (Z.eq_dec q 0) as [Hq0|Hq0].
    - right. (* a * 2^s < b *)
      assert (Hlt : Z.pos a * 2 ^ (- e') < Z.pos b).
      { apply Z.div_small_iff in Hq0; lia. }
      assert (H1 : 2 ^ (d1 - 1 + - e') < 2 ^ d2).
      { rewrite pow2_add by lia. nia. }
      apply pow2_lt_inv in H1; [|lia|lia].
      subst e'. rewrite fexp_eq in *. lia.
    - left. destruct (Z.le_gt_cases 0 (d1 - 1 - e' - d2)) as [Ht|Ht].
      + assert (H2 : 2 ^ (d1 - 1 - e' - d2) ≤ q).
        { apply Z.div_le_lower_bound; [lia|].
          assert (2 ^ (d1 - 1 - e' - d2) * 2 ^ d2 = 2 ^ (d1 - 1) * 2 ^ (- e')).
          { rewrite <- !pow2_add by lia. f_equal. lia. }
          nia. }
        pose proof (log2_ge q _ ltac:(lia) Ht H2). lia.
      + assert (0 < Zdigits2 q).
        { rewrite Zdigits2_log2 by lia. pose proof (Z.log2_nonneg q). lia. }
        lia. }
  rewrite fexp_eq. destruct Hkey as [Hk|Hk]; [|lia].
  subst e'. rewrite fexp_eq in *. lia.
Qed.

(** The quotient is in canonical form, and its sign is the dividend's. *)
Lemma SFdiv_valid (neg : bool) (a b : positive) :
  valid_binary Js.prec Js.emax
    (SFdiv Js.prec Js.emax (S754_finite neg a 0) (S754_finite false b 0)) = true.
Proof.
  unfold SFdiv. rewrite div_core_spec.
  destruct (div_core_pre a b) as [Hq Hpre].
  by apply binary_round_aux_valid.
Qed.

Lemma SFdiv_opp (a b : positive) :
  SFdiv Js.prec Js.emax (S754_finite true a 0) (S754_finite false b 0)
  = SFopp (SFdiv Js.prec Js.emax (S754_finite false a 0) (S754_finite false b 0)).
Proof.
  unfold SFdiv. rewrite div_core_spec. apply binary_round_aux_opp.
Qed.

(** Every value of [roundDecimal] is in canonical form. *)
Lemma roundDecimal_valid (neg : bool) (m e10 : Z) :
  valid_binary Js.prec Js.emax (Js.roundDecimal neg m e10) = true.
Proof.
  unfold Js.roundDecimal. destruct (m =? 0); [done|].
  destruct (0 <=? e10).
  - unfold binary_normalize.
    destruct (cond_Zopp neg (m * 10 ^ e10)); [done|apply binary_round_valid..].
  - apply SFdiv_valid.
Qed.

(** The sign goes through the rounding. *)
Lemma roundDecimal_opp (m e10 : Z) :
  0 < m → Js.roundDecimal true m e10 = SFopp (Js.roundDecimal false m e10).
Proof.
  intros Hm. unfold Js.roundDecimal.
  destruct (Z.eqb_spec m 0) as [|_]; [lia|].
  destruct (0 <=? e10) eqn:He.
  - assert (0 < m * 10 ^ e10).
    { apply Z.mul_pos_pos; [done|]. apply Z.pow_pos_nonneg; lia. }
    unfold binary_normalize, cond_Zopp.
    destruct (m * 10 ^ e10) as [|p|p] eqn:Hp; try lia. simpl Z.opp.
    apply binary_round_opp.
  - apply SFdiv_opp.
Qed.

(** Reading back a value that a binary64 number holds exactly. *)
Lemma roundDecimal_exact_integer (M : positive) (E : Z) :
  bounded Js.prec Js.emax M E = true → 0 ≤ E →
  Js.roundDecimal false (Zpos M * 2 ^ E) 0 = S754_finite false M E.
Proof.
  intros Hb HE. pose proof (pow2_pos E HE) as Hp.
  unfold Js.roundDecimal.
  destruct (Z.eqb_spec (Z.pos M * 2 ^ E) 0) as [|_]; [lia|].
  cbn [Z.leb Z.compare]. rewrite Z.pow_0_r, Z.mul_1_r.
  unfold cond_Zopp, binary_normalize.
  destruct (Z.pos M * 2 ^ E) as [|N|N] eqn:HN; try lia.
  unfold binary_round.
  pose proof (shl_align_spec N 0 (fexp Js.prec Js.emax (Zpos (digits2_pos N) + 0))) as H.
  destruct (shl_align _ _ _) as [mz ez]. destruct H as [He Hm].
  apply bounded_spec in Hb as Hb'. destruct Hb' as [Hc Hle].
  assert (Hf : fexp Js.prec Js.emax (Zpos (digits2_pos N) + 0) = E).
  { change (Zpos (digits2_pos N)) with (Zdigits2 (Zpos N)).
    rewrite <- HN, Zdigits2_mul_pow2 by lia.
    replace (Zdigits2 (Z.pos M) + E + 0) with (Zdigits2 (Z.pos M) + E) by lia. done. }
  rewrite Hf in He. assert (Hez : ez = 0) by lia. clear He. subst ez.
  replace (0 - 0) with 0 in Hm by lia. rewrite Z.pow_0_r, Z.mul_1_r in Hm.
  rewrite Hm, <- HN.
  replace (2 ^ E) with (2 ^ (E - 0)) by (f_equal; lia).
  by apply binary_round_aux_exact.
Qed.

(** The same below one: [lo / 10 ^ (- E)] is [M * 2 ^ E]. *)
Lemma roundDecimal_exact_fraction (M : positive) (E lo : Z) :
  bounded Js.prec Js.emax M E = true → E < 0 → 0 < lo →
  lo * 2 ^ (- E) = Zpos M * 10 ^ (- E) →
  Js.roundDecimal false lo E = S754_finite false M E.
Proof.
  intros Hb HE Hlo Hval.
  unfold Js.roundDecimal.
  destruct (Z.eqb_spec lo 0) as [|_]; [lia|].
  destruct (Z.leb_spec 0 E) as [|_]; [lia|].
  assert (H10 : 0 < 10 ^ (- E)) by (apply Z.pow_pos_nonneg; lia).
  destruct lo as [|a|a]; try lia.
  destruct (10 ^ (- E)) as [|b|b] eqn:Hb10; try lia.
  cbn [Z.to_pos]. unfold SFdiv. rewrite div_core_spec.
  set (d1 := Zdigits2 (Zpos a)). set (d2 := Zdigits2 (Zpos b)).
  set (e' := Z.min (fexp Js.prec Js.emax (d1 - d2)) 0).
  apply bounded_spec in Hb as Hb'. destruct Hb' as [Hc Hle].
  pose proof (pow2_pos (- E) ltac:(lia)) as HpE.
  (* e' <= E *)
  destruct (Zdigits2_bounds (Zpos a) ltac:(lia)) as [Ha1 Ha2].
  destruct (Zdigits2_bounds (Zpos b) ltac:(lia)) as [Hb1 Hb2].
  destruct (Zdigits2_bounds (Zpos M) ltac:(lia)) as [HM1 HM2].
  fold d1 in Ha1, Ha2. fold d2 in Hb1, Hb2.
  set (dM := Zdigits2 (Zpos M)) in *.
  assert (Hd1 : 0 < d1) by (subst d1; simpl; lia).
  assert (Hd2 : 0 < d2) by (subst d2; simpl; lia).
  assert (HdM : 0 < dM) by (subst dM; simpl; lia).
  assert (Hdd : d1 - d2 ≤ dM + E).
  { assert (H1 : 2 ^ (d1 - 1 + - E) < 2 ^ (dM + d2)).
    { rewrite !pow2_add by lia. nia. }
    apply pow2_lt_inv in H1; lia. }
  assert (He'E : e' ≤ E).
  { subst e'. rewrite fexp_eq in *. lia. }
  pose proof (pow2_pos (- e') ltac:(lia)) as Hpe.
  pose proof (pow2_pos (E - e') ltac:(lia)) as HpEe.
  assert (Hprod : Z.pos a * 2 ^ (- e') = Zpos M * 2 ^ (E - e') * Zpos b).
  { replace (- e') with (- E + (E - e')) by lia. rewrite pow2_add by lia. nia. }
  rewrite Hprod, Z.div_mul, Z.mod_mul, new_location_0 by lia.
  by apply binary_round_aux_exact.
Qed.

(** ** The digits [String] chooses *)

(** Powers of ten. *)
Lemma pow10_pos (a : Z) : 0 ≤ a → 0 < 10 ^ a.
Proof. intros. apply Z.pow_pos_nonneg; lia. Qed.

Lemma pow10_add (a b : Z) : 0 ≤ a → 0 ≤ b → 10 ^ (a + b) = 10 ^ a * 10 ^ b.
Proof. intros. by rewrite Z.pow_add_r. Qed.

Lemma pow10_le (a b : Z) : 0 ≤ a ≤ b → 10 ^ a ≤ 10 ^ b.
Proof. intros. apply Z.pow_le_mono_r; lia. Qed.

Lemma pow2_le_pow10 (a : Z) : 0 ≤ a → 2 ^ a ≤ 10 ^ a.
Proof. intros. apply Z.pow_le_mono_l; lia. Qed.

Lemma pow10_split (a : Z) : 0 ≤ a → 10 ^ a = 2 ^ a * 5 ^ a.
Proof. intros. by rewrite <- Z.pow_mul_l. Qed.

(** [belowPow10 xn xd (b - a)] compares [xn * 10 ^ a] with [xd * 10 ^ b]. *)
Lemma belowPow10_scale (xn xd a b : Z) :
  0 ≤ a → 0 ≤ b →
  Js.belowPow10 xn xd (b - a) = (xn * 10 ^ a <? xd * 10 ^ b).
Proof.
  intros Ha Hb. unfold Js.belowPow10.
  destruct (Z.leb_spec 0 (b - a)) as [H|H].
  - replace b with (a + (b - a)) at 2 by lia.
    rewrite pow10_add by lia.
    assert (HP := pow10_pos a Ha). generalize dependent (10 ^ a). intros P HP.
    generalize (10 ^ (b - a)). intros Q.
    destruct (Z.ltb_spec xn (xd * Q)), (Z.ltb_spec (xn * P) (xd * (P * Q))); try done; nia.
  - replace a with (b + (- (b - a))) at 2 by lia.
    rewrite pow10_add by lia.
    assert (HP := pow10_pos b Hb). generalize dependent (10 ^ b). intros P HP.
    generalize (10 ^ (- (b - a))). intros Q.
    destruct (Z.ltb_spec (xn * Q) xd), (Z.ltb_spec (xn * (P * Q)) (xd * P)); try done; nia.
Qed.

Lemma belowPow10_mono (xn xd n n' : Z) :
  0 < xd → n ≤ n' → Js.belowPow10 xn xd n = true → Js.belowPow10 xn xd n' = true.
Proof.
  intros Hxd Hn.
  set (a := Z.max 0 (- n)).
  replace n with ((a + n) - a) by lia. replace n' with ((a + n') - a) by lia.
  rewrite !belowPow10_scale by lia.
  intros H%Z.ltb_lt. apply Z.ltb_lt.
  assert (10 ^ (a + n) ≤ 10 ^ (a + n')) by (apply pow10_le; lia).
  nia.
Qed.

(** The search stops at the first [n] with [xn / xd < 10 ^ n]. *)
Lemma searchUp_spec (fuel : nat) (n xn xd : Z) :
  Js.belowPow10 xn xd (n - 1) = false →
  Js.belowPow10 xn xd (n + Z.of_nat fuel) = true →
  Js.belowPow10 xn xd (Js.searchUp fuel n xn xd) = true ∧
  Js.belowPow10 xn xd (Js.searchUp fuel n xn xd - 1) = false.
Proof.
  revert n. induction fuel as [|fuel IH]; intros n Hlo Hhi.
  - simpl. replace (n + Z.of_nat 0) with n in Hhi by lia. done.
  - cbn [Js.searchUp]. destruct (Js.belowPow10 xn xd n) eqn:Hn; [done|].
    apply IH.
    + by replace (n + 1 - 1) with n by lia.
    + by replace (n + 1 + Z.of_nat fuel) with (n + Z.of_nat (S fuel)) by lia.
Qed.

(** [decimalPoint] finds the [n] with [10 ^ (n - 1) <= xn / xd < 10 ^ n]. *)
Lemma decimalPoint_spec (xn xd : Z) :
  0 < xn → 0 < xd →
  Js.belowPow10 xn xd (Js.decimalPoint xn xd) = true ∧
  Js.belowPow10 xn xd (Js.decimalPoint xn xd - 1) = false.
Proof.
  intros Hxn Hxd. unfold Js.decimalPoint.
  set (guess := (Z.log2 xn - Z.log2 xd) * 30103 / 100000).
  set (start := if Js.belowPow10 xn xd (guess - 1) then - Z.log2 xd else guess).
  assert (Hla := Z.log2_spec xn Hxn). assert (Hlb := Z.log2_spec xd Hxd).
  assert (0 ≤ Z.log2 xn) by apply Z.log2_nonneg.
  assert (0 ≤ Z.log2 xd) by apply Z.log2_nonneg.
  assert (Hup : Js.belowPow10 xn xd (Z.log2 xn + 1) = true).
  { replace (Z.log2 xn + 1) with ((Z.log2 xn + 1) - 0) by lia.
    rewrite belowPow10_scale by lia. apply Z.ltb_lt.
    assert (2 ^ Z.succ (Z.log2 xn) ≤ 10 ^ Z.succ (Z.log2 xn)) by (apply pow2_le_pow10; lia).
    replace (Z.log2 xn + 1) with (Z.succ (Z.log2 xn)) by lia.
    rewrite Z.pow_0_r. nia. }
  assert (Hstart : Js.belowPow10 xn xd (start - 1) = false).
  { unfold start. destruct (Js.belowPow10 xn xd (guess - 1)) eqn:Hg; [|done].
    replace (- Z.log2 xd - 1) with (0 - Z.succ (Z.log2 xd)) by lia.
    rewrite belowPow10_scale by lia. apply Z.ltb_ge.
    assert (2 ^ Z.succ (Z.log2 xd) ≤ 10 ^ Z.succ (Z.log2 xd)) by (apply pow2_le_pow10; lia).
    rewrite Z.pow_0_r. nia. }
  apply searchUp_spec; [done|].
  apply (belowPow10_mono _ _ (Z.max start (Z.log2 xn + 1))); [done|lia|].
  destruct (Z.le_gt_cases start (Z.log2 xn + 1)).
  - by replace (Z.max start (Z.log2 xn + 1)) with (Z.log2 xn + 1) by lia.
  - apply (belowPow10_mono _ _ (Z.log2 xn + 1)); [done|lia|done].
Qed.

(** The scaled fraction lies between [10 ^ (k - 1)] and [10 ^ k]. *)
Lemma scaled_range (xn xd n k : Z) :
  0 < xd → 1 ≤ k →
  Js.belowPow10 xn xd n = true → Js.belowPow10 xn xd (n - 1) = false →
  let '(qn, qd) := Js.scaled xn xd (n - k) in
  0 < qd ∧ 10 ^ (k - 1) * qd ≤ qn < 10 ^ k * qd.
Proof.
  intros Hxd Hk Hn Hn1. unfold Js.scaled.
  destruct (Z.leb_spec 0 (n - k)) as [Hp|Hp].
  - assert (0 < 10 ^ (n - k)) by (apply pow10_pos; lia).
    split; [nia|].
    replace n with ((n - k + k) - 0) in Hn by lia.
    replace (n - 1) with ((n - k + (k - 1)) - 0) in Hn1 by lia.
    rewrite belowPow10_scale in Hn, Hn1 by lia.
    rewrite pow10_add in Hn, Hn1 by lia. rewrite Z.pow_0_r in Hn, Hn1.
    apply Z.ltb_lt in Hn. apply Z.ltb_ge in Hn1. lia.
  - split; [done|].
    replace n with (k - (- (n - k))) in Hn by lia.
    replace (n - 1) with ((k - 1) - (- (n - k))) in Hn1 by lia.
    rewrite belowPow10_scale in Hn, Hn1 by lia.
    apply Z.ltb_lt in Hn. apply Z.ltb_ge in Hn1. lia.
Qed.

Lemma lo_range (qn qd k : Z) :
  0 < qd → 1 ≤ k → 10 ^ (k - 1) * qd ≤ qn < 10 ^ k * qd →
  10 ^ (k - 1) ≤ qn / qd < 10 ^ k.
Proof.
  intros Hqd Hk [H1 H2]. split.
  - apply Z.div_le_lower_bound; lia.
  - apply Z.div_lt_upper_bound; lia.
Qed.

Lemma candidate_good (x : Js.number) (k n s : Z) :
  1 ≤ k → 10 ^ (k - 1) ≤ s ≤ 10 ^ k →
  Js.readsBack x (Js.candidate k n s) = true →
  goodDigits x (Js.candidate k n s).
Proof.
  intros Hk Hs. unfold Js.candidate.
  assert (10 ^ (k - 1) < 10 ^ k) by (apply Z.pow_lt_mono_r; lia).
  destruct (Z.eqb_spec s (10 ^ k)); intros Hr; unfold goodDigits; (split; [done|split; [lia|done]]).
Qed.

Lemma shortest_eq (fuel : nat) (k n xn xd : Z) (x : Js.number) :
  Js.shortest fuel k n xn xd x =
  let '(qn, qd) := Js.scaled xn xd (n - k) in
  let lo := qn / qd in
  let hi := lo + 1 in
  match Js.readsBack x (Js.candidate k n lo), Js.readsBack x (Js.candidate k n hi) with
  | true, true =>
      match 2 * qn ?= (lo + hi) * qd with
      | Lt => Js.candidate k n lo
      | Gt => Js.candidate k n hi
      | Eq => Js.candidate k n (if Z.even lo then lo else hi)
      end
  | true, false => Js.candidate k n lo
  | false, true => Js.candidate k n hi
  | false, false =>
      match fuel with
      | O => Js.candidate k n lo
      | S fuel' => Js.shortest fuel' (k + 1) n xn xd x
      end
  end.
Proof. destruct fuel; reflexivity. Qed.

(** With fuel to reach a number of digits that reads back, [shortest]
    returns digits that read back. *)
Lemma shortest_good (fuel : nat) (k n xn xd : Z) (x : Js.number) :
  0 < xd → 1 ≤ k →
  Js.belowPow10 xn xd n = true → Js.belowPow10 xn xd (n - 1) = false →
  (let '(qn, qd) := Js.scaled xn xd (n - (k + Z.of_nat fuel)) in
   Js.readsBack x (Js.candidate (k + Z.of_nat fuel) n (qn / qd)) = true) →
  goodDigits x (Js.shortest fuel k n xn xd x).
Proof.
  intros Hxd Hk Hn Hn1. revert k Hk.
  induction fuel as [|fuel IH]; intros k Hk Hlast; rewrite shortest_eq;
    pose proof (scaled_range xn xd n k Hxd Hk Hn Hn1) as Hr;
    destruct (Js.scaled xn xd (n - k)) as [qn qd] eqn:Hsc;
    destruct Hr as [Hqd Hr]; pose proof (lo_range qn qd k Hqd Hk Hr) as Hlo;
    cbv zeta;
    destruct (Js.readsBack x (Js.candidate k n (qn / qd))) eqn:R1;
    destruct (Js.readsBack x (Js.candidate k n (qn / qd + 1))) eqn:R2;
    try (apply candidate_good; [done|lia|done]);
    try (destruct (2 * qn ?= (qn / qd + (qn / qd + 1)) * qd);
         try destruct (Z.even (qn / qd)); (apply candidate_good; [done|lia|done])).
  - replace (k + Z.of_nat 0) with k in Hlast by lia.
    rewrite Hsc in Hlast. cbv beta iota in Hlast. congruence.
  - apply IH; [lia|].
    by replace (k + 1 + Z.of_nat fuel) with (k + Z.of_nat (S fuel)) by lia.
Qed.

(** A finite number equals itself. *)
Lemma SFeqb_refl_finite (s : bool) (m : positive) (e : Z) :
  SFeqb (S754_finite s m e) (S754_finite s m e) = true.
Proof.
  unfold SFeqb, SFcompare. destruct s.
  - rewrite Z.compare_refl. rewrite Pos.compare_cont_refl. done.
  - rewrite Z.compare_refl. rewrite Pos.compare_cont_refl. done.
Qed.

(** With all its decimal digits, the lower candidate is the value itself. *)
Lemma last_candidate_exact (M : positive) (E n : Z) :
  bounded Js.prec Js.emax M E = true →
  let xn := if 0 <=? E then Z.pos M * 2 ^ E else Z.pos M in
  let xd := if 0 <=? E then 1 else 2 ^ (- E) in
  let k := n - Z.min E 0 in
  1 ≤ k →
  Js.belowPow10 xn xd n = true → Js.belowPow10 xn xd (n - 1) = false →
  let '(qn, qd) := Js.scaled xn xd (n - k) in
  Js.readsBack (S754_finite false M E) (Js.candidate k n (qn / qd)) = true.
Proof.
  intros Hb xn xd k Hk Hn Hn1.
  assert (Hxd : 0 < xd).
  { unfold xd. destruct (Z.leb_spec 0 E); [lia|]. apply Z.pow_pos_nonneg; lia. }
  pose proof (scaled_range xn xd n k Hxd Hk Hn Hn1) as Hr.
  destruct (Js.scaled xn xd (n - k)) as [qn qd] eqn:Hsc.
  destruct Hr as [Hqd Hr]. pose proof (lo_range qn qd k Hqd Hk Hr) as Hlo.
  unfold Js.candidate. destruct (Z.eqb_spec (qn / qd) (10 ^ k)); [lia|].
  unfold Js.readsBack, Js.strictEquals.
  unfold Js.scaled in Hsc. unfold xn, xd, k in *. clear xn xd k.
  destruct (Z.leb_spec 0 E) as [HE|HE].
  - replace (n - (n - Z.min E 0)) with 0 in * by lia.
    simpl in Hsc. injection Hsc as <- <-.
    rewrite Z.div_1_r.
    rewrite roundDecimal_exact_integer by done. apply SFeqb_refl_finite.
  - replace (n - (n - Z.min E 0)) with E in * by lia.
    destruct (Z.leb_spec 0 E); [lia|]. injection Hsc as <- <-.
    assert (Hdiv : Z.pos M * 10 ^ (- E) / 2 ^ (- E) = Z.pos M * 5 ^ (- E)).
    { rewrite pow10_split by lia.
      replace (Z.pos M * (2 ^ (- E) * 5 ^ (- E))) with (Z.pos M * 5 ^ (- E) * 2 ^ (- E)) by lia.
      apply Z.div_mul. apply Z.pow_nonzero; lia. }
    rewrite Hdiv in *.
    rewrite (roundDecimal_exact_fraction M E); [apply SFeqb_refl_finite|done|done| |].
    + assert (0 < 5 ^ (- E)) by (apply Z.pow_pos_nonneg; lia). lia.
    + rewrite pow10_split by lia. lia.
Qed.

(** [String(x)] for a positive [x] writes digits that read back as [x]. *)
Lemma toStringPositive_spec (M : positive) (E : Z) :
  bounded Js.prec Js.emax M E = true →
  ∃ s k n, Js.toStringPositive M E = Js.formatDecimal s k n ∧
           goodDigits (S754_finite false M E) (s, k, n).
Proof.
  intros Hb. unfold Js.toStringPositive.
  set (xn := if 0 <=? E then Z.pos M * 2 ^ E else Z.pos M).
  set (xd := if 0 <=? E then 1 else 2 ^ (- E)).
  assert (Hxd : 0 < xd).
  { unfold xd. destruct (Z.leb_spec 0 E); [lia|]. apply Z.pow_pos_nonneg; lia. }
  assert (Hxn : 0 < xn).
  { unfold xn. destruct (Z.leb_spec 0 E); [|lia].
    assert (0 < 2 ^ E) by (apply Z.pow_pos_nonneg; lia). lia. }
  destruct (decimalPoint_spec xn xd Hxn Hxd) as [Hn Hn1].
  set (n := Js.decimalPoint xn xd) in *.
  assert (Hmin : Js.belowPow10 xn xd (Z.min E 0) = false).
  { unfold xn, xd. destruct (Z.leb_spec 0 E) as [HE|HE].
    - replace (Z.min E 0) with 0 by lia. unfold Js.belowPow10. simpl.
      apply Z.ltb_ge. assert (0 < 2 ^ E) by (apply Z.pow_pos_nonneg; lia). nia.
    - replace (Z.min E 0) with E by lia. unfold Js.belowPow10.
      destruct (Z.leb_spec 0 E); [lia|].
      apply Z.ltb_ge. assert (2 ^ (- E) ≤ 10 ^ (- E)) by (apply pow2_le_pow10; lia).
      nia. }
  assert (Hk : 1 ≤ n - Z.min E 0).
  { destruct (Z.le_gt_cases n (Z.min E 0)) as [Hle|]; [|lia].
    rewrite (belowPow10_mono xn xd n (Z.min E 0) Hxd Hle Hn) in Hmin. done. }
  pose proof (shortest_good (Z.to_nat (n - Z.min E 0 - 1)) 1 n xn xd
                (S754_finite false M E) Hxd ltac:(lia) Hn Hn1) as Hgood.
  replace (1 + Z.of_nat (Z.to_nat (n - Z.min E 0 - 1))) with (n - Z.min E 0) in Hgood by lia.
  specialize (Hgood (last_candidate_exact M E n Hb Hk Hn Hn1)).
  destruct (Js.shortest _ 1 n xn xd _) as [[s k] n'].
  by exists s, k, n'.
Qed.

(** ** Reading what [String] writes *)

(** A digit written is the digit read, and is no white space. *)
Lemma digitIn_digitChar (d : Z) : 0 ≤ d < 10 → Js.digitIn 10 (Js.digitChar d) = Some d.
Proof. intros H. digit_cases d H; reflexivity. Qed.

Lemma isWhiteSpace_digitChar (d : Z) : 0 ≤ d < 10 → Js.isWhiteSpace (Js.digitChar d) = false.
Proof. intros H. digit_cases d H; reflexivity. Qed.

(** [+:+] on strings. *)
Lemma append_cons (c : ascii) (a b : string) : String c a +:+ b = String c (a +:+ b).
Proof. reflexivity. Qed.

Lemma append_nil_l (b : string) : "" +:+ b = b.
Proof. reflexivity. Qed.

Lemma append_nil_r (s : string) : s +:+ "" = s.
Proof. induction s as [|c s IH]; [done|]. by rewrite append_cons, IH. Qed.

Lemma append_assoc (a b c : string) : (a +:+ b) +:+ c = a +:+ (b +:+ c).
Proof. induction a as [|x a IH]; [done|]. by rewrite !append_cons, IH. Qed.

Lemma mod10_range (t : Z) : 0 ≤ t mod 10 < 10.
Proof. apply Z.mod_pos_bound. lia. Qed.

(** [scanDigits] over the digits [digitsFrom] writes. *)
Lemma scanDigits_digitsFrom_nat (j : nat) (s acc c : Z) (rest : string) :
  Js.scanDigits 10 acc c (Js.digitsFrom j s +:+ rest) =
  Js.scanDigits 10 (acc * 10 ^ Z.of_nat j + s mod 10 ^ Z.of_nat j) (c + Z.of_nat j) rest.
Proof.
  revert acc c. induction j as [|j IH]; intros acc c.
  - cbn [Js.digitsFrom]; rewrite ?append_cons, ?append_nil_l.
    replace (acc * 10 ^ Z.of_nat 0 + s mod 10 ^ Z.of_nat 0) with acc.
    + by replace (c + Z.of_nat 0) with c by lia.
    + change (10 ^ Z.of_nat 0) with 1. rewrite Z.mod_1_r. lia.
  - cbn [Js.digitsFrom]; rewrite ?append_cons, ?append_nil_l; cbn [Js.scanDigits].
    rewrite digitIn_digitChar by apply mod10_range. rewrite IH.
    replace (c + 1 + Z.of_nat j) with (c + Z.of_nat (S j)) by lia.
    f_equal.
    replace (Z.of_nat (S j)) with (Z.of_nat j + 1) by lia.
    rewrite pow10_add by lia. change (10 ^ 1) with 10.
    assert (0 < 10 ^ Z.of_nat j) by (apply pow10_pos; lia).
    rewrite (Z.rem_mul_r s (10 ^ Z.of_nat j) 10) by lia. lia.
Qed.

Lemma scanDigits_digitsFrom (j s acc c : Z) (rest : string) :
  0 ≤ j →
  Js.scanDigits 10 acc c (Js.digitsFrom (Z.to_nat j) s +:+ rest) =
  Js.scanDigits 10 (acc * 10 ^ j + s mod 10 ^ j) (c + j) rest.
Proof. intros. rewrite scanDigits_digitsFrom_nat. by rewrite Z2Nat.id. Qed.

Lemma scanDigits_digitsFrom_end (j s acc c : Z) :
  0 ≤ j →
  Js.scanDigits 10 acc c (Js.digitsFrom (Z.to_nat j) s) =
  (acc * 10 ^ j + s mod 10 ^ j, c + j, "").
Proof.
  intros. rewrite <- (append_nil_r (Js.digitsFrom _ _)).
  by rewrite scanDigits_digitsFrom.
Qed.

Lemma zeros_digitsFrom (j : nat) : Js.zeros j = Js.digitsFrom j 0.
Proof.
  induction j as [|j IH]; [done|]. cbn [Js.zeros Js.digitsFrom].
  rewrite Zdiv_0_l. by rewrite IH.
Qed.

(** [decimalDigits] writes all the digits of its argument. *)
Lemma digitCount_pos (fuel : nat) (z : Z) : (0 < Js.digitCount fuel z)%nat.
Proof. destruct fuel; cbn [Js.digitCount]; [lia|]. destruct (z <? 10); lia. Qed.

Lemma digitCount_bound (fuel : nat) (z : Z) :
  0 ≤ z → (Z.to_nat z ≤ fuel)%nat → z < 10 ^ Z.of_nat (Js.digitCount fuel z).
Proof.
  revert z. induction fuel as [|fuel IH]; intros z Hz Hf; cbn [Js.digitCount].
  - change (10 ^ Z.of_nat 1) with 10. lia.
  - destruct (Z.ltb_spec z 10) as [H|H].
    + change (10 ^ Z.of_nat 1) with 10. lia.
    + assert (Hd : 0 ≤ z / 10 < z) by (split; [apply Z.div_pos; lia|apply Z.div_lt; lia]).
      specialize (IH (z / 10) ltac:(lia) ltac:(lia)).
      replace (Z.of_nat (S (Js.digitCount fuel (z / 10))))
        with (Z.of_nat (Js.digitCount fuel (z / 10)) + 1) by lia.
      rewrite pow10_add by lia. change (10 ^ 1) with 10.
      pose proof (Z.div_mod z 10 ltac:(lia)). pose proof (mod10_range z). lia.
Qed.

Lemma scanDigits_decimalDigits (z : Z) :
  0 ≤ z → ∃ count, 0 < count ∧ Js.scanDigits 10 0 0 (Js.decimalDigits z) = (z, count, "").
Proof.
  intros Hz. unfold Js.decimalDigits.
  set (j := Js.digitCount (Z.to_nat z) z).
  exists (Z.of_nat j). split.
  - pose proof (digitCount_pos (Z.to_nat z) z). unfold j. lia.
  - rewrite <- (append_nil_r (Js.digitsFrom _ _)), scanDigits_digitsFrom_nat.
    rewrite Z.mod_small; [done|].
    split; [done|]. apply digitCount_bound; [done|lia].
Qed.

(** The exponent part written by [formatDecimal] is read as written. *)
Lemma parseExponent_rendered (e : Z) :
  Js.parseExponent ("e" +:+ (if e <? 0 then "-" else "+") +:+ Js.decimalDigits (Z.abs e))
  = Some e.
Proof.
  destruct (scanDigits_decimalDigits (Z.abs e) ltac:(lia)) as (count & Hc & Hscan).
  destruct (Z.ltb_spec e 0) as [H|H];
    rewrite ?append_cons, ?append_nil_l; unfold Js.parseExponent;
    change (("e" =? "e")%char || ("e" =? "E")%char) with true; cbv beta iota;
    rewrite Hscan; (destruct (Z.ltb_spec 0 count); [|lia]); cbn [cond_Zopp]; f_equal; lia.
Qed.

(** [parseUnsignedDecimal], from what its scans return. *)
Lemma parseUnsignedDecimal_eq (neg : bool) (str r1 r2 : string)
    (ip icount m fcount e : Z) :
  String.eqb str "Infinity" = false →
  Js.scanDigits 10 0 0 str = (ip, icount, r1) →
  match r1 with
  | String "." r => Js.scanDigits 10 ip 0 r
  | _ => (ip, 0, r1)
  end = (m, fcount, r2) →
  0 < icount + fcount →
  Js.parseExponent r2 = Some e →
  Js.parseUnsignedDecimal neg str = Js.roundDecimal neg m (e - fcount).
Proof.
  intros H1 H2 H3 H4 H5. unfold Js.parseUnsignedDecimal.
  rewrite H1, H2, H3. destruct (Z.ltb_spec 0 (icount + fcount)); [|lia].
  by rewrite H5.
Qed.

Lemma eqb_Infinity_digit (d : Z) (r : string) :
  0 ≤ d < 10 → String.eqb (String (Js.digitChar d) r) "Infinity" = false.
Proof. intros H. digit_cases d H; reflexivity. Qed.

(** Trailing zeros of an integer are a power of ten. *)
Lemma roundDecimal_shift (neg : bool) (s z : Z) :
  0 < s → 0 ≤ z → Js.roundDecimal neg (s * 10 ^ z) 0 = Js.roundDecimal neg s z.
Proof.
  intros Hs Hz. unfold Js.roundDecimal.
  assert (0 < 10 ^ z) by (apply pow10_pos; lia).
  destruct (Z.eqb_spec (s * 10 ^ z) 0); [nia|]. destruct (Z.eqb_spec s 0); [lia|].
  destruct (Z.leb_spec 0 z); [|lia]. change (0 <=? 0) with true. cbv iota.
  by rewrite Z.pow_0_r, Z.mul_1_r.
Qed.

Lemma pow10_succ (j : Z) : 1 ≤ j → 10 ^ j = 10 ^ (j - 1) * 10.
Proof.
  intros. replace j with ((j - 1) + 1) at 1 by lia. by rewrite pow10_add by lia.
Qed.

(** The first digit of a number of [j] digits is not zero. *)
Lemma leading_digit (j t : Z) :
  1 ≤ j → 10 ^ (j - 1) ≤ t < 10 ^ j → 1 ≤ (t / 10 ^ (j - 1)) mod 10 ≤ 9.
Proof.
  intros Hj [H1 H2].
  assert (0 < 10 ^ (j - 1)) by (apply pow10_pos; lia).
  assert (1 ≤ t / 10 ^ (j - 1) < 10).
  { split.
    - apply Z.div_le_lower_bound; lia.
    - apply Z.div_lt_upper_bound; [lia|].
      rewrite (pow10_succ j) in H2 by lia. lia. }
  rewrite Z.mod_small; lia.
Qed.

Lemma digitsFrom_head (j t : Z) :
  1 ≤ j → 10 ^ (j - 1) ≤ t < 10 ^ j →
  ∃ d r, 1 ≤ d ≤ 9 ∧ Js.digitsFrom (Z.to_nat j) t = String (Js.digitChar d) r.
Proof.
  intros Hj Ht. destruct (Z.to_nat j) as [|j'] eqn:Hj'; [lia|].
  cbn [Js.digitsFrom]. eexists _, _. split; [|reflexivity].
  replace (Z.of_nat j') with (j - 1) by lia. by apply leading_digit.
Qed.

Lemma high_digits_range (s k n : Z) :
  0 ≤ n ≤ k → 10 ^ (k - 1) ≤ s < 10 ^ k → 1 ≤ k →
  (1 ≤ n → 10 ^ (n - 1) ≤ s / 10 ^ (k - n)) ∧ s / 10 ^ (k - n) < 10 ^ n.
Proof.
  intros Hn [H1 H2] Hk.
  assert (0 < 10 ^ (k - n)) by (apply pow10_pos; lia).
  split.
  - intros Hn1. apply Z.div_le_lower_bound; [lia|].
    rewrite <- pow10_add by lia. by replace (k - n + (n - 1)) with (k - 1) by lia.
  - apply Z.div_lt_upper_bound; [lia|].
    rewrite <- pow10_add by lia. by replace (k - n + n) with k by lia.
Qed.

Lemma headed_app (a b : string) : headed a → headed (a +:+ b).
Proof. intros [d r H|r]; rewrite ?append_cons, ?append_nil_l; by constructor. Qed.

Lemma headed_digitsFrom (j t : Z) :
  1 ≤ j → 10 ^ (j - 1) ≤ t < 10 ^ j → headed (Js.digitsFrom (Z.to_nat j) t).
Proof.
  intros Hj Ht. destruct (digitsFrom_head j t Hj Ht) as (d & r & Hd & ->).
  by constructor.
Qed.

Lemma formatDecimal_headed (s k n : Z) :
  1 ≤ k → 10 ^ (k - 1) ≤ s < 10 ^ k → headed (Js.formatDecimal s k n).
Proof.
  intros Hk Hs. unfold Js.formatDecimal.
  destruct (Z.leb_spec k n) as [H1|H1]; cbn [andb].
  { destruct (n <=? 21); [by apply headed_app, headed_digitsFrom|].
    destruct (Z.ltb_spec 0 n); [|lia]. cbn [andb].
    destruct (Z.ltb_spec (-6) n); [|lia]. destruct (Z.leb_spec n 0); [lia|]. cbn [andb].
    destruct (Z.eqb_spec k 1) as [->|].
    - by apply headed_app, (headed_digitsFrom 1).
    - rewrite append_assoc. apply headed_app, (headed_digitsFrom 1); [lia|].
      destruct (high_digits_range s k 1 ltac:(lia) Hs Hk) as [Ha Hb].
      split; [by apply Ha|done]. }
  destruct (Z.ltb_spec 0 n) as [H2|H2]; cbn [andb].
  { destruct (n <=? 21).
    - apply headed_app, headed_digitsFrom; [lia|].
      destruct (high_digits_range s k n ltac:(lia) Hs Hk) as [Ha Hb].
      split; [apply Ha; lia|done].
    - destruct (Z.ltb_spec (-6) n); [|lia]. destruct (Z.leb_spec n 0); [lia|]. cbn [andb].
      destruct (Z.eqb_spec k 1) as [->|].
      + by apply headed_app, (headed_digitsFrom 1).
      + rewrite append_assoc. apply headed_app, (headed_digitsFrom 1); [lia|].
        destruct (high_digits_range s k 1 ltac:(lia) Hs Hk) as [Ha Hb].
        split; [by apply Ha|done]. }
  destruct ((-6 <? n) && (n <=? 0)).
  { rewrite ?append_cons, ?append_nil_l. constructor. }
  destruct (Z.eqb_spec k 1) as [->|].
  - by apply headed_app, (headed_digitsFrom 1).
  - rewrite append_assoc. apply headed_app, (headed_digitsFrom 1); [lia|].
    destruct (high_digits_range s k 1 ltac:(lia) Hs Hk) as [Ha Hb].
    split; [by apply Ha|done].
Qed.

Lemma headed_not_Infinity (str : string) : headed str → String.eqb str "Infinity" = false.
Proof.
  intros [d r H|r]; [|reflexivity]. apply eqb_Infinity_digit. lia.
Qed.

(** A written number holds no white space, so [trim] leaves it as it is. *)
Lemma noWhiteSpace_app (a b : string) :
  Js.noWhiteSpace (a +:+ b) = Js.noWhiteSpace a && Js.noWhiteSpace b.
Proof.
  induction a as [|c a IH]; [done|]. rewrite ?append_cons, ?append_nil_l; cbn [Js.noWhiteSpace].
  rewrite IH. by rewrite andb_assoc.
Qed.

Lemma noWhiteSpace_digitsFrom (j : nat) (s : Z) : Js.noWhiteSpace (Js.digitsFrom j s) = true.
Proof.
  induction j as [|j IH]; [done|]. cbn [Js.digitsFrom Js.noWhiteSpace].
  rewrite isWhiteSpace_digitChar by apply mod10_range. by rewrite IH.
Qed.

Lemma noWhiteSpace_formatDecimal (s k n : Z) : Js.noWhiteSpace (Js.formatDecimal s k n) = true.
Proof.
  unfold Js.formatDecimal, Js.decimalDigits.
  repeat match goal with |- context [if ?b then _ else _] => destruct b end;
    rewrite ?noWhiteSpace_app, ?zeros_digitsFrom, ?noWhiteSpace_digitsFrom;
    reflexivity.
Qed.

Lemma trimEnd_noWhiteSpace (s : string) : Js.noWhiteSpace s = true → Js.trimEnd s = s.
Proof.
  induction s as [|c s IH]; [done|]. cbn [Js.noWhiteSpace Js.trimEnd].
  intros [Hc Hs]%andb_true_iff. rewrite IH by done.
  destruct s; [|done]. apply negb_true_iff in Hc. by rewrite Hc.
Qed.

Lemma trim_noWhiteSpace (s : string) : Js.noWhiteSpace s = true → Js.trim s = s.
Proof.
  intros H. unfold Js.trim.
  replace (Js.trimStart s) with s; [by apply trimEnd_noWhiteSpace|].
  destruct s as [|c s]; [done|]. cbn [Js.noWhiteSpace] in H. cbn [Js.trimStart].
  apply andb_true_iff in H as [Hc _]. apply negb_true_iff in Hc. by rewrite Hc.
Qed.

(** [Number] reads a written number as a decimal literal. *)
Lemma Number_headed (str : string) :
  headed str → Js.noWhiteSpace str = true →
  Js.Number str = Js.parseUnsignedDecimal false str.
Proof.
  intros Hh Hw. unfold Js.Number. rewrite trim_noWhiteSpace by done.
  destruct Hh as [d r H|r]; [|reflexivity].
  assert (H' : d = 1 ∨ d = 2 ∨ d = 3 ∨ d = 4 ∨ d = 5 ∨ d = 6 ∨ d = 7 ∨ d = 8 ∨ d = 9) by lia.
  clear H Hw. repeat (destruct H' as [->|H']); [..|subst d]; reflexivity.
Qed.

Lemma Number_minus (str : string) :
  Js.noWhiteSpace str = true →
  Js.Number ("-" +:+ str) = Js.parseUnsignedDecimal true str.
Proof.
  intros Hw. unfold Js.Number. rewrite trim_noWhiteSpace; [reflexivity|].
  rewrite ?append_cons, ?append_nil_l; cbn [Js.noWhiteSpace]. by rewrite Hw.
Qed.

Lemma scanDigits_stop_dot (acc c : Z) (r : string) :
  Js.scanDigits 10 acc c (String "." r) = (acc, c, String "." r).
Proof. reflexivity. Qed.

Lemma scanDigits_stop_e (acc c : Z) (r : string) :
  Js.scanDigits 10 acc c (String "e" r) = (acc, c, String "e" r).
Proof. reflexivity. Qed.

(** Reading a rendered number gives the decimal that was written. *)
Lemma triple_eq (a a' b b' : Z) (r : string) : a = a' → b = b' → (a, b, r) = (a', b', r).
Proof. by intros -> ->. Qed.

Lemma parse_formatDecimal (neg : bool) (s k n : Z) :
  1 ≤ k → 10 ^ (k - 1) ≤ s < 10 ^ k →
  Js.parseUnsignedDecimal neg (Js.formatDecimal s k n) = Js.roundDecimal neg s (n - k).
Proof.
  intros Hk Hs.
  pose proof (formatDecimal_headed s k n Hk Hs) as Hh%headed_not_Infinity.
  assert (0 < 10 ^ (k - 1)) by (apply pow10_pos; lia).
  revert Hh. unfold Js.formatDecimal.
  destruct ((k <=? n) && (n <=? 21)) eqn:C1.
  { apply andb_true_iff in C1 as [C1%Z.leb_le C2%Z.leb_le]. intros Hh.
    rewrite zeros_digitsFrom in *.
    rewrite (parseUnsignedDecimal_eq neg _ "" "" (s * 10 ^ (n - k)) (k + (n - k))
               (s * 10 ^ (n - k)) 0 0); [|done| |done|lia|done].
    - replace (0 - 0) with 0 by lia. apply roundDecimal_shift; lia.
    - rewrite scanDigits_digitsFrom, scanDigits_digitsFrom_end by lia.
      rewrite (Z.mod_small s) by lia. rewrite Z.mod_0_l by (apply Z.pow_nonzero; lia).
      apply triple_eq; lia. }
  destruct ((0 <? n) && (n <=? 21)) eqn:C2.
  { apply andb_true_iff in C2 as [C2%Z.ltb_lt C3%Z.leb_le]. intros Hh.
    assert (C1' : n < k).
    { destruct (Z.leb_spec k n); [|done]. destruct (Z.leb_spec n 21); [done|lia]. }
    destruct (high_digits_range s k n ltac:(lia) Hs Hk) as [Ha Hb].
    assert (0 < 10 ^ (k - n)) by (apply pow10_pos; lia).
    rewrite (parseUnsignedDecimal_eq neg _
               ("." +:+ Js.digitsFrom (Z.to_nat (k - n)) s) "" (s / 10 ^ (k - n)) n
               s (k - n) 0); [|done| | |lia|done].
    - f_equal. lia.
    - rewrite scanDigits_digitsFrom by lia. rewrite ?append_cons, ?append_nil_l.
      rewrite scanDigits_stop_dot.
      rewrite Z.mod_small by (split; [apply Z.div_pos; lia|done]).
      apply triple_eq; lia.
    - rewrite ?append_cons, ?append_nil_l. rewrite scanDigits_digitsFrom_end by lia.
      pose proof (Z.div_mod s (10 ^ (k - n)) ltac:(lia)). apply triple_eq; lia. }
  destruct ((-6 <? n) && (n <=? 0)) eqn:C3.
  { apply andb_true_iff in C3 as [C3%Z.ltb_lt C4%Z.leb_le]. intros Hh.
    rewrite ?append_cons, ?append_nil_l in *. rewrite zeros_digitsFrom in *.
    rewrite (parseUnsignedDecimal_eq neg _
               (String "." (Js.digitsFrom (Z.to_nat (- n)) 0 +:+ Js.digitsFrom (Z.to_nat k) s))
               "" 0 1 s (- n + k) 0); [|done|reflexivity| |lia|done].
    - f_equal. lia.
    - rewrite scanDigits_digitsFrom, scanDigits_digitsFrom_end by lia.
      rewrite (Z.mod_small s) by lia. rewrite Z.mod_0_l by (apply Z.pow_nonzero; lia).
      apply triple_eq; lia. }
  set (tail := "e" +:+ (if n - 1 <? 0 then "-" else "+") +:+ Js.decimalDigits (Z.abs (n - 1))).
  assert (Htail : ∃ t, tail = String "e" t) by (by eexists).
  pose proof (parseExponent_rendered (n - 1)) as Hpe. fold tail in Hpe.
  destruct Htail as [t Ht].
  destruct (Z.eqb_spec k 1) as [->|Hk1]; intros Hh.
  - change (10 ^ (1 - 1)) with 1 in *. change (10 ^ 1) with 10 in *.
    rewrite (parseUnsignedDecimal_eq neg _ tail tail s 1 s 0 (n - 1)); [|done| | |lia|done].
    + f_equal. lia.
    + rewrite (scanDigits_digitsFrom 1) by lia. rewrite Ht, scanDigits_stop_e.
      rewrite Z.mod_small by lia. apply triple_eq; lia.
    + by rewrite Ht.
  - rewrite append_assoc in *. rewrite ?append_cons, ?append_nil_l in *.
    destruct (high_digits_range s k 1 ltac:(lia) Hs Hk) as [Ha Hb].
    change (10 ^ 1) with 10 in *.
    rewrite (parseUnsignedDecimal_eq neg _
               (String "." (Js.digitsFrom (Z.to_nat (k - 1)) s +:+ tail)) tail
               (s / 10 ^ (k - 1)) 1 s (k - 1) (n - 1)); [|done| | |lia|done].
    + f_equal. lia.
    + change (String ?c (?a +:+ ?b)) with (String c a +:+ b).
      rewrite (scanDigits_digitsFrom 1) by lia. rewrite ?append_cons, ?append_nil_l.
      rewrite scanDigits_stop_dot.
      rewrite Z.mod_small by (split; [apply Z.div_pos; lia|done]).
      apply triple_eq; lia.
    + rewrite scanDigits_digitsFrom by lia. rewrite Ht, scanDigits_stop_e.
      pose proof (Z.div_mod s (10 ^ (k - 1)) ltac:(lia)). apply triple_eq; lia.
Qed.

(** ** [Number(String(x))] *)

(** [===] with a finite number that is not zero is equality. *)
Lemma SFeqb_finite_inv (a : spec_float) (s : bool) (m : positive) (e : Z) :
  SFeqb a (S754_finite s m e) = true → a = S754_finite s m e.
Proof.
  unfold SFeqb, SFcompare.
  destruct a as [sa| sa| |sa ma ea]; try (by destruct sa, s); try done.
  destruct sa, s; try done.
  - destruct (Z.compare_spec ea e) as [->|?|?]; try done.
    change (Pos.compare_cont Eq ma m) with (ma ?= m)%positive.
    destruct (Pos.compare_spec ma m); try done. by subst.
  - destruct (Z.compare_spec ea e) as [->|?|?]; try done.
    change (Pos.compare_cont Eq ma m) with (ma ?= m)%positive.
    destruct (Pos.compare_spec ma m); try done. by subst.
Qed.

Lemma parseRadix_valid (radix : Z) (s : string) :
  valid_binary Js.prec Js.emax (Js.parseRadix radix s) = true.
Proof.
  unfold Js.parseRadix. destruct (Js.scanDigits radix 0 0 s) as [[m count] r].
  destruct r; [|done]. destruct (0 <? count); [|done]. apply roundDecimal_valid.
Qed.

Lemma parseUnsignedDecimal_valid (neg : bool) (s : string) :
  valid_binary Js.prec Js.emax (Js.parseUnsignedDecimal neg s) = true.
Proof.
  unfold Js.parseUnsignedDecimal. destruct (String.eqb s "Infinity"); [done|].
  destruct (Js.scanDigits 10 0 0 s) as [[ip icount] r1].
  destruct (match r1 with String "." r => Js.scanDigits 10 ip 0 r | _ => (ip, 0, r1) end)
    as [[m fcount] r2].
  destruct (0 <? icount + fcount); [|done].
  destruct (Js.parseExponent r2); [|done]. apply roundDecimal_valid.
Qed.

(** Every value of [Number(str)] is a binary64 value in canonical form. *)
Lemma Number_valid (str : string) : valid_binary Js.prec Js.emax (Js.Number str) = true.
Proof.
  unfold Js.Number.
  repeat case_match; first [done | apply parseRadix_valid | apply parseUnsignedDecimal_valid].
Qed.

(** [Number(String(x))] is [x] for a finite [x] in canonical form. *)
Lemma toString_roundtrip_finite (sx : bool) (M : positive) (E : Z) :
  bounded Js.prec Js.emax M E = true →
  Js.Number (Js.toString (S754_finite sx M E)) = S754_finite sx M E.
Proof.
  intros Hb. destruct (toStringPositive_spec M E Hb) as (s & k & n & Hstr & Hk & Hs & Hr).
  unfold Js.readsBack, Js.strictEquals in Hr. apply SFeqb_finite_inv in Hr.
  pose proof (noWhiteSpace_formatDecimal s k n) as Hw.
  assert (0 < 10 ^ (k - 1)) by (apply pow10_pos; lia).
  destruct sx; cbn [Js.toString]; rewrite Hstr.
  - rewrite Number_minus by done. rewrite parse_formatDecimal by done.
    rewrite roundDecimal_opp by lia. by rewrite Hr.
  - rewrite Number_headed by (done || by apply formatDecimal_headed).
    by rewrite parse_formatDecimal.
Qed.

(** Reading what [String] wrote for a finite number gives the number back. *)
Lemma Number_toString_Number (str : string) :
  Js.isFinite (Js.Number str) = true →
  Js.strictEquals (Js.Number (Js.toString (Js.Number str))) (Js.Number str) = true.
Proof.
  intros Hfin. pose proof (Number_valid str) as Hv.
  destruct (Js.Number str) as [s|s| |s M E].
  - destruct s; reflexivity.
  - done.
  - done.
  - rewrite toString_roundtrip_finite by done. apply SFeqb_refl_finite.
Qed.

(** ** Committing a field *)

Lemma passesValidation_false (field : DraftField) (value : string) :
  passesValidation field value = false →
  field = FBudgetConsumed ∧ Js.isFinite (Js.Number (Js.trim value)) = false.
Proof.
  unfold passesValidation. intros [H1 H2]%orb_false_iff. split; [|done].
  apply negb_false_iff in H1. by apply bool_decide_eq_true in H1.
Qed.

Lemma passesValidation_true (field : DraftField) (value : string) :
  passesValidation field value = true →
  bool_decide (field = FBudgetConsumed) && negb (Js.isFinite (Js.Number (Js.trim value)))
  = false.
Proof.
  unfold passesValidation. destruct (bool_decide (field = FBudgetConsumed)); [|done].
  simpl. by intros ->.
Qed.

Lemma commitBegin_missing (rowId : string) (field : DraftField) (value : string)
    (st : State) :
  findRow st.(rows) rowId = None → commitBegin rowId field value st = Returned st.
Proof. unfold commitBegin. by intros ->. Qed.

Lemma commitBegin_invalid (rowId : string) (value : string) (st : State)
    (original : BudgetRow) :
  findRow st.(rows) rowId = Some original →
  Js.isFinite (Js.Number (Js.trim value)) = false →
  commitBegin rowId FBudgetConsumed value st =
  Returned (setFieldErrors
              (λ current, <[getErrorKey rowId FBudgetConsumed
                            := Some "Enter a valid number."]> current) st).
Proof. unfold commitBegin. intros -> ->. done. Qed.

Lemma commitBegin_payload (field : DraftField) (value : string) :
  let updatePayload : gmap string JsValue := ∅ in
  let updatePayload :=
    if bool_decide (field = FBudgetConsumed)
    then <["promx_budgetconsumed" := VNumber (Js.Number (Js.trim value))]> updatePayload
    else updatePayload in
  let updatePayload :=
    if bool_decide (field = FName)
    then <["promx_name" := VString (Js.trim value)]> updatePayload
    else updatePayload in
  let updatePayload :=
    if bool_decide (field = FOwnerId)
    then <["ownerid" := VString (Js.trim value)]> updatePayload
    else updatePayload in
  updatePayload = payloadOf field value.
Proof. destruct field; simpl; apply insert_empty. Qed.

Lemma commitBegin_unchanged (rowId : string) (field : DraftField) (value : string)
    (st : State) (original : BudgetRow) :
  findRow st.(rows) rowId = Some original →
  passesValidation field value = true →
  getField original field = nextValueOf field value →
  commitBegin rowId field value st =
  Returned (setFieldErrors (λ current, <[getErrorKey rowId field := None]> current) st).
Proof.
  unfold commitBegin. intros -> Hv%passesValidation_true Heq. rewrite Hv.
  fold (nextValueOf field value). rewrite Heq. by rewrite String.eqb_refl.
Qed.

Lemma commitBegin_changed (rowId : string) (field : DraftField) (value : string)
    (st : State) (original : BudgetRow) :
  findRow st.(rows) rowId = Some original →
  passesValidation field value = true →
  getField original field ≠ nextValueOf field value →
  commitBegin rowId field value st =
  Awaiting (setSaving (λ current, <[getErrorKey rowId field := true]> current) st)
           {| call_id := rowId; call_payload := payloadOf field value |}
           (nextValueOf field value).
Proof.
  unfold commitBegin. intros -> Hv%passesValidation_true Hne. rewrite Hv.
  fold (nextValueOf field value).
  apply String.eqb_neq in Hne. rewrite Hne.
  by rewrite <- (commitBegin_payload field value).
Qed.

Lemma findRow_map_setField (l : list BudgetRow) (rowId : string) (field : DraftField)
    (v : string) (original : BudgetRow) :
  findRow l rowId = Some original →
  findRow (map (λ row, if String.eqb row.(id) rowId then setField row field v else row) l)
          rowId
  = Some (setField original field v).
Proof.
  unfold findRow. induction l as [|a l IH]; [done|]. simpl.
  destruct (String.eqb_spec a.(id) rowId) as [Heq|Hne].
  - intros [= <-]. simpl. rewrite id_setField.
    apply String.eqb_eq in Heq. by rewrite Heq.
  - intros H. simpl. apply String.eqb_neq in Hne. rewrite Hne. by apply IH.
Qed.

Lemma map_setField_all (l : list BudgetRow) (rowId : string) (field : DraftField)
    (v : string) (row' : BudgetRow) :
  row' ∈ map (λ row, if String.eqb row.(id) rowId then setField row field v else row) l →
  row'.(id) = rowId → getField row' field = v.
Proof.
  intros (row & -> & Hin)%list_elem_of_fmap.
  destruct (String.eqb_spec row.(id) rowId) as [Heq|Hne].
  - intros _. rewrite getField_setField. by rewrite decide_True.
  - done.
Qed.

(** What a settled update leaves behind, read at the key of the commit. *)
Lemma commitSettle_fulfilled (rowId : string) (field : DraftField) (nextValue : string)
    (u : unit) (st : State) :
  let st' := commitSettle rowId field nextValue (Fulfilled u) st in
  st'.(rows) = map (λ row, if String.eqb row.(id) rowId
                           then setField row field nextValue else row) st.(rows) ∧
  draftProp st'.(drafts) rowId field = Some nextValue ∧
  getDraftValue st'.(drafts) rowId field = nextValue ∧
  errorAt st' (getErrorKey rowId field) = None ∧
  savingAt st' (getErrorKey rowId field) = Some false.
Proof.
  simpl. split; [done|].
  assert (Hd : draftProp
                 (<[rowId := withProp (st.(drafts) !! rowId) field nextValue]> st.(drafts))
                 rowId field = Some nextValue).
  { rewrite draftProp_insert_withProp. by rewrite decide_True. }
  split; [exact Hd|]. split.
  - unfold getDraftValue. unfold draftProp in Hd. by rewrite Hd.
  - unfold errorAt, savingAt. simpl. by rewrite !lookup_insert_eq.
Qed.

Lemma commitSettle_rejected (rowId : string) (field : DraftField) (nextValue : string)
    (error : Thrown) (st : State) :
  let st' := commitSettle rowId field nextValue (Rejected error) st in
  st'.(rows) = st.(rows) ∧ st'.(drafts) = st.(drafts) ∧
  errorAt st' (getErrorKey rowId field) = Some (commitErrorMessage error) ∧
  savingAt st' (getErrorKey rowId field) = Some false.
Proof.
  simpl. unfold errorAt, savingAt. simpl. by rewrite !lookup_insert_eq.
Qed.

Lemma commitSettle_saving (rowId : string) (field : DraftField) (nextValue : string)
    (outcome : Settled unit) (st : State) :
  savingAt (commitSettle rowId field nextValue outcome st) (getErrorKey rowId field)
  = Some false.
Proof. unfold savingAt. destruct outcome; simpl; by rewrite lookup_insert_eq. Qed.

Lemma handleCommit_changed (update : string → gmap string JsValue → Settled unit)
    (rowId : string) (field : DraftField) (value : string) (st : State)
    (original : BudgetRow) :
  findRow st.(rows) rowId = Some original →
  passesValidation field value = true →
  getField original field ≠ nextValueOf field value →
  handleCommit update rowId field value st =
  (commitSettle rowId field (nextValueOf field value)
     (update rowId (payloadOf field value))
     (setSaving (λ current, <[getErrorKey rowId field := true]> current) st),
   [ {| call_id := rowId; call_payload := payloadOf field value |} ]).
Proof.
  intros Hf Hv Hne. unfold handleCommit.
  by rewrite (commitBegin_changed _ _ _ _ _ Hf Hv Hne).
Qed.

(** The callbacks run alone are runs of the event loop: the synchronous
    part, then the settling of the request it left in flight. *)
Lemma handleCommit_run (update : string → gmap string JsValue → Settled unit)
    (rowId : string) (field : DraftField) (value : string) (st : State) :
  handleCommit update rowId field value st =
  match commitBegin rowId field value st with
  | Returned _ => run st [EvCommit rowId field value]
  | Awaiting _ call nextValue =>
      run st [ EvCommit rowId field value;
               EvUpdateSettled rowId field nextValue
                 (update call.(call_id) call.(call_payload)) ]
  end.
Proof.
  unfold handleCommit. cbn [run dispatch].
  by destruct (commitBegin rowId field value st).
Qed.

Lemma loadBudgets_run (result : GetAllResult) (st : State) :
  run st [EvLoad; EvLoadSettled result] = (loadBudgets result st, []).
Proof. reflexivity. Qed.

(** C2.  A commit on a loaded row that passes validation with a value that
    differs from the saved one issues exactly one update request, for that
    row, whose payload holds the one changed attribute under its store-side
    name, the amount as a number.  When the request succeeds the row and
    the draft hold the transformed value at that field, the field's error
    is cleared and its saving flag is false. *)
Theorem commit_changed_issues_one_update
    (update : string → gmap string JsValue → Settled unit)
    (rowId : string) (field : DraftField) (value : string) (st : State)
    (original : BudgetRow) :
  findRow st.(rows) rowId = Some original →
  passesValidation field value = true →
  getField original field ≠ nextValueOf field value →
  let payload : gmap string JsValue :=
    match field with
    | FName => {[ "promx_name" := VString (Js.trim value) ]}
    | FBudgetConsumed =>
        {[ "promx_budgetconsumed" := VNumber (Js.Number (Js.trim value)) ]}
    | FOwnerId => {[ "ownerid" := VString (Js.trim value) ]}
    end in
  let result := handleCommit update rowId field value st in
  let key := getErrorKey rowId field in
  result.2 = [ {| call_id := rowId; call_payload := payload |} ] ∧
  (∀ u, update rowId payload = Fulfilled u →
     findRow result.1.(rows) rowId
       = Some (setField original field (nextValueOf field value)) ∧
     (∀ row', row' ∈ result.1.(rows) → row'.(id) = rowId →
        getField row' field = nextValueOf field value) ∧
     getDraftValue result.1.(drafts) rowId field = nextValueOf field value ∧
     errorAt result.1 key = None ∧
     savingAt result.1 key = Some false).
Proof.
  intros Hf Hv Hne payload result key.
  assert (Hp : payload = payloadOf field value) by (by destruct field).
  subst result. rewrite (handleCommit_changed _ _ _ _ _ _ Hf Hv Hne), Hp.
  split; [done|]. intros u Hu. cbn [fst]. rewrite Hu.
  destruct (commitSettle_fulfilled rowId field (nextValueOf field value) u
              (setSaving (λ current, <[getErrorKey rowId field := true]> current) st))
    as (Hrows & _ & Hdraft & Herr & Hsav).
  rewrite Hrows. cbn [setSaving rows].
  split; [by apply findRow_map_setField|].
  split; [intros row'; apply map_setField_all|]. done.
Qed.

(** The [name] of a loaded row becomes "Marketing Q3". *)
Lemma commit_changed_issues_one_update_witness :
  let st := loadBudgets
              (Fulfilled (Some [ {| promx_budgetid := "b1"; promx_name := Some "Marketing";
                                    promx_budgetconsumed := Some "150";
                                    ownerid := Some "o1" |} ]))
              initialState in
  let result := handleCommit (λ _ _, Fulfilled ()) "b1" FName "Marketing Q3" st in
  passesValidation FName "Marketing Q3" = true ∧
  result.2 = [ {| call_id := "b1";
                  call_payload := {[ "promx_name" := VString "Marketing Q3" ]} |} ] ∧
  name <$> findRow result.1.(rows) "b1" = Some "Marketing Q3" ∧
  getDraftValue result.1.(drafts) "b1" FName = "Marketing Q3" ∧
  errorAt result.1 "b1-name" = None ∧ savingAt result.1 "b1-name" = Some false.
Proof.
  intros st result.
  assert (Hf : findRow st.(rows) "b1"
               = Some {| id := "b1"; name := "Marketing"; budgetConsumed := "150";
                         ownerId := "o1" |}) by reflexivity.
  assert (Hv : passesValidation FName "Marketing Q3" = true) by reflexivity.
  destruct (commit_changed_issues_one_update (λ _ _, Fulfilled ()) "b1" FName
              "Marketing Q3" st _ Hf Hv) as [Hcalls Hok].
  { vm_compute. discriminate. }
  destruct (Hok () eq_refl) as (Hrow & _ & Hdraft & Herr & Hsav).
  subst result.
  split; [exact Hv|]. split; [exact Hcalls|].
  split; [by rewrite Hrow|]. split; [exact Hdraft|]. by split.
Defined.

(** C3.  When the update request of a commit fails, the field's error is
    the failure's message, or "Unable to save changes." for a failure that
    is not an [Error]; the rows and the drafts are what they were before
    the commit, so the draft keeps the attempted value; and the field's
    saving flag ends false, as it does after every settled request. *)
Theorem commit_failure_sets_error_keeps_values
    (update : string → gmap string JsValue → Settled unit)
    (rowId : string) (field : DraftField) (value : string) (st : State)
    (original : BudgetRow) (error : Thrown) :
  findRow st.(rows) rowId = Some original →
  passesValidation field value = true →
  getField original field ≠ nextValueOf field value →
  update rowId (payloadOf field value) = Rejected error →
  let st' := (handleCommit update rowId field value st).1 in
  let key := getErrorKey rowId field in
  (errorAt st' key = Some (commitErrorMessage error) ∧
   (∀ message, error = ThrownError message → errorAt st' key = Some message) ∧
   (error = ThrownOther → errorAt st' key = Some "Unable to save changes.")) ∧
  (st'.(rows) = st.(rows) ∧ st'.(drafts) = st.(drafts)) ∧
  savingAt st' key = Some false ∧
  (∀ update', savingAt (handleCommit update' rowId field value st).1 key = Some false) ∧
  (∀ nextValue outcome st0,
     savingAt (commitSettle rowId field nextValue outcome st0) key = Some false) ∧
  (∀ nextValue st0,
     (commitSettle rowId field nextValue (Rejected error) st0).(rows) = st0.(rows) ∧
     (commitSettle rowId field nextValue (Rejected error) st0).(drafts) = st0.(drafts)).
Proof.
  intros Hf Hv Hne Hu st' key. subst st' key.
  rewrite (handleCommit_changed _ _ _ _ _ _ Hf Hv Hne), Hu. cbn [fst].
  destruct (commitSettle_rejected rowId field (nextValueOf field value) error
              (setSaving (λ current, <[getErrorKey rowId field := true]> current) st))
    as (Hrows & Hdrafts & Herr & Hsav).
  split; [split; [exact Herr|split]|].
  - intros message ->. exact Herr.
  - intros ->. exact Herr.
  - split; [by split|]. split; [exact Hsav|]. split; [|split].
    + intros update'. rewrite (handleCommit_changed _ _ _ _ _ _ Hf Hv Hne).
      apply commitSettle_saving.
    + intros nextValue outcome st0. apply commitSettle_saving.
    + intros nextValue st0. by split.
Qed.

(** The user typed "Marketing Q3" over "Marketing" and the update timed
    out. *)
Lemma commit_failure_sets_error_keeps_values_witness :
  let update := λ (_ : string) (_ : gmap string JsValue),
                  @Rejected unit (ThrownError "network timeout") in
  let st := handleDraftChange "b1" FName "Marketing Q3" exampleState in
  let st' := (handleCommit update "b1" FName "Marketing Q3" st).1 in
  passesValidation FName "Marketing Q3" = true ∧
  errorAt st' "b1-name" = Some "network timeout" ∧
  savingAt st' "b1-name" = Some false ∧
  name <$> findRow st'.(rows) "b1" = Some "Marketing" ∧
  getDraftValue st'.(drafts) "b1" FName = "Marketing Q3".
Proof.
  intros update st st'.
  assert (Hf : findRow st.(rows) "b1" = Some (mapBudget exampleBudget)) by reflexivity.
  assert (Hv : passesValidation FName "Marketing Q3" = true) by reflexivity.
  destruct (commit_failure_sets_error_keeps_values update "b1" FName "Marketing Q3" st
              _ (ThrownError "network timeout") Hf Hv)
    as ((_ & Hmsg & _) & (Hrows & Hdrafts) & Hsav & _).
  { vm_compute. discriminate. }
  { reflexivity. }
  subst st'. split; [exact Hv|].
  split; [exact (Hmsg "network timeout" eq_refl)|]. split; [exact Hsav|].
  rewrite Hrows, Hdrafts. by split.
Defined.

(** C4.  A commit of [budgetConsumed] on a loaded row whose trimmed value
    does not read as a finite number sets the field's error to
    "Enter a valid number." and returns: no request is issued and the
    saving flags, the rows and the drafts are what they were. *)
Theorem commit_invalid_number_rejected
    (update : string → gmap string JsValue → Settled unit)
    (rowId : string) (value : string) (st : State) (original : BudgetRow) :
  findRow st.(rows) rowId = Some original →
  Js.isFinite (Js.Number (Js.trim value)) = false →
  let result := handleCommit update rowId FBudgetConsumed value st in
  errorAt result.1 (getErrorKey rowId FBudgetConsumed) = Some "Enter a valid number." ∧
  result.2 = [] ∧
  (dispatch st (EvCommit rowId FBudgetConsumed value)).2 = [] ∧
  result.1.(saving) = st.(saving) ∧
  result.1.(rows) = st.(rows) ∧
  result.1.(drafts) = st.(drafts).
Proof.
  intros Hf Hn result. subst result. unfold handleCommit, dispatch.
  rewrite (commitBegin_invalid _ _ _ _ Hf Hn). cbn [fst snd].
  unfold errorAt. simpl. by rewrite lookup_insert_eq.
Qed.

(** The amount typed is "abc". *)
Lemma commit_invalid_number_rejected_witness :
  let result := handleCommit (λ _ _, Fulfilled ()) "b1" FBudgetConsumed "abc" exampleState in
  Js.isFinite (Js.Number (Js.trim "abc")) = false ∧
  errorAt result.1 "b1-budgetConsumed" = Some "Enter a valid number." ∧
  result.2 = [].
Proof.
  intros result.
  assert (Hf : findRow exampleState.(rows) "b1" = Some (mapBudget exampleBudget))
    by reflexivity.
  assert (Hn : Js.isFinite (Js.Number (Js.trim "abc")) = false) by reflexivity.
  destruct (commit_invalid_number_rejected (λ _ _, Fulfilled ()) "b1" "abc" exampleState
              _ Hf Hn) as (Herr & Hcalls & _).
  split; [exact Hn|]. by split.
Defined.

(** C5.  A commit on a loaded row that passes validation and whose next
    value, the amount re-stringified, equals the saved one clears the
    field's error and returns: no request is issued, the saving flags, the
    rows and the drafts are what they were, and committing again changes
    nothing more. *)
Theorem commit_unchanged_is_noop
    (update : string → gmap string JsValue → Settled unit)
    (rowId : string) (field : DraftField) (value : string) (st : State)
    (original : BudgetRow) :
  findRow st.(rows) rowId = Some original →
  passesValidation field value = true →
  getField original field = nextValueOf field value →
  let result := handleCommit update rowId field value st in
  result.2 = [] ∧
  (dispatch st (EvCommit rowId field value)).2 = [] ∧
  errorAt result.1 (getErrorKey rowId field) = None ∧
  result.1.(saving) = st.(saving) ∧
  result.1.(rows) = st.(rows) ∧
  result.1.(drafts) = st.(drafts) ∧
  handleCommit update rowId field value result.1 = result.
Proof.
  intros Hf Hv Heq result. subst result. unfold handleCommit, dispatch.
  rewrite (commitBegin_unchanged _ _ _ _ _ Hf Hv Heq). cbn [fst snd].
  repeat split.
  - unfold errorAt. simpl. by rewrite lookup_insert_eq.
  - rewrite (commitBegin_unchanged _ _ _ _ original); [|done..].
    unfold setFieldErrors. simpl. by rewrite insert_insert_eq.
Qed.

(** The amount typed is "150", as saved, under an earlier error. *)
Lemma commit_unchanged_is_noop_witness :
  let st := (handleCommit (λ _ _, Fulfilled ()) "b1" FBudgetConsumed "abc" exampleState).1 in
  let result := handleCommit (λ _ _, Fulfilled ()) "b1" FBudgetConsumed "150" st in
  passesValidation FBudgetConsumed "150" = true ∧
  errorAt st "b1-budgetConsumed" = Some "Enter a valid number." ∧
  errorAt result.1 "b1-budgetConsumed" = None ∧
  result.2 = [].
Proof.
  intros st result.
  assert (Hf : findRow st.(rows) "b1" = Some (mapBudget exampleBudget)) by reflexivity.
  assert (Hv : passesValidation FBudgetConsumed "150" = true) by reflexivity.
  destruct (commit_unchanged_is_noop (λ _ _, Fulfilled ()) "b1" FBudgetConsumed "150" st
              _ Hf Hv) as (Hcalls & _ & Herr & _).
  { vm_compute. reflexivity. }
  split; [exact Hv|]. split; [reflexivity|]. by split.
Defined.

(** ** Amounts *)

(** C6.  A commit of [budgetConsumed] that succeeds sends the number read
    from the trimmed input, and the row and the draft then hold the string
    form of that number, not the text typed.  That string form reads back
    as the number itself ([Number_toString_Number]), so committing the
    field again with the draft it now shows issues no request and leaves
    the state as it is. *)
Theorem commit_budgetConsumed_normalizes
    (update : string → gmap string JsValue → Settled unit)
    (rowId : string) (value : string) (st : State) (original : BudgetRow) (u : unit) :
  let parsed := Js.Number (Js.trim value) in
  findRow st.(rows) rowId = Some original →
  Js.isFinite parsed = true →
  original.(budgetConsumed) ≠ Js.toString parsed →
  update rowId {[ "promx_budgetconsumed" := VNumber parsed ]} = Fulfilled u →
  let result := handleCommit update rowId FBudgetConsumed value st in
  result.2 = [ {| call_id := rowId;
                  call_payload := {[ "promx_budgetconsumed" := VNumber parsed ]} |} ] ∧
  budgetConsumed <$> findRow result.1.(rows) rowId = Some (Js.toString parsed) ∧
  getDraftValue result.1.(drafts) rowId FBudgetConsumed = Js.toString parsed ∧
  (∀ update',
     handleCommit update' rowId FBudgetConsumed
                  (getDraftValue result.1.(drafts) rowId FBudgetConsumed) result.1
     = (result.1, [])).
Proof.
  intros parsed Hf Hfin Hne Hu result.
  pose proof (Number_toString_Number (Js.trim value) Hfin) as Hback. fold parsed in Hback.
  apply strictEquals_same in Hback as [Hrt Hfin'].
  rewrite <- (Number_trim (Js.toString parsed)) in Hrt, Hfin'. rewrite Hfin in Hfin'.
  assert (Hv : passesValidation FBudgetConsumed value = true) by exact Hfin.
  set (st1 := setSaving
                (λ current, <[getErrorKey rowId FBudgetConsumed := true]> current) st).
  set (st' := commitSettle rowId FBudgetConsumed (Js.toString parsed) (Fulfilled u) st1).
  assert (Hres : result =
                 (st', [ {| call_id := rowId;
                            call_payload :=
                              {[ "promx_budgetconsumed" := VNumber parsed ]} |} ])).
  { subst result. rewrite (handleCommit_changed _ _ _ _ _ _ Hf Hv Hne).
    cbn [payloadOf]. fold parsed. by rewrite Hu. }
  rewrite Hres. cbn [fst snd].
  destruct (commitSettle_fulfilled rowId FBudgetConsumed (Js.toString parsed) u st1)
    as (Hrows & _ & Hdraft & _).
  fold st' in Hrows, Hdraft.
  assert (Hf' : findRow st'.(rows) rowId
                = Some (setField original FBudgetConsumed (Js.toString parsed))).
  { rewrite Hrows. by apply findRow_map_setField. }
  split; [done|]. split; [by rewrite Hf'|]. split; [exact Hdraft|].
  intros update'. rewrite Hdraft. unfold handleCommit.
  assert (Hv' : passesValidation FBudgetConsumed (Js.toString parsed) = true)
    by exact Hfin'.
  rewrite (commitBegin_unchanged _ _ _ _ _ Hf' Hv'); [|by symmetry].
  f_equal. subst st' st1.
  unfold commitSettle, setFieldErrors, setSaving, setDrafts, setRows.
  simpl. f_equal. apply insert_insert_eq.
Qed.

(** The amount typed is " 42.50 ". *)
Lemma commit_budgetConsumed_normalizes_witness :
  let update := λ (_ : string) (_ : gmap string JsValue), Fulfilled () in
  let result := handleCommit update "b1" FBudgetConsumed " 42.50 " exampleState in
  Js.isFinite (Js.Number (Js.trim " 42.50 ")) = true ∧
  result.2 = [ {| call_id := "b1";
                  call_payload :=
                    {[ "promx_budgetconsumed"
                       := VNumber (S754_finite false 5981343255101440 (-47)) ]} |} ] ∧
  budgetConsumed <$> findRow result.1.(rows) "b1" = Some "42.5" ∧
  getDraftValue result.1.(drafts) "b1" FBudgetConsumed = "42.5" ∧
  handleCommit update "b1" FBudgetConsumed "42.5" result.1 = (result.1, []).
Proof.
  intros update result.
  assert (Hf : findRow exampleState.(rows) "b1" = Some (mapBudget exampleBudget))
    by reflexivity.
  assert (Hn : Js.Number (Js.trim " 42.50 ") = S754_finite false 5981343255101440 (-47))
    by (vm_compute; reflexivity).
  assert (Hs : Js.toString (Js.Number (Js.trim " 42.50 ")) = "42.5")
    by (vm_compute; reflexivity).
  assert (Hfin : Js.isFinite (Js.Number (Js.trim " 42.50 ")) = true)
    by (vm_compute; reflexivity).
  destruct (commit_budgetConsumed_normalizes update "b1" " 42.50 " exampleState
              _ () Hf Hfin) as (Hcalls & Hrow & Hdraft & Hagain).
  { rewrite Hs. vm_compute. discriminate. }
  { reflexivity. }
  fold result in Hcalls, Hrow, Hdraft, Hagain.
  rewrite Hs in Hrow, Hdraft. rewrite Hn in Hcalls.
  split; [exact Hfin|]. split; [exact Hcalls|].
  split; [exact Hrow|]. split; [exact Hdraft|].
  specialize (Hagain update). by rewrite Hdraft in Hagain.
Defined.

(** C10.  A [budgetConsumed] draft that is empty or made of white space
    only passes validation: its trimmed value is the empty string, which
    reads as the number 0.  On a loaded row whose saved amount is not "0"
    the commit issues one update with the number 0, and when that succeeds
    the row and the draft hold "0" and the field has no error. *)
Theorem commit_blank_budgetConsumed_stores_zero
    (update : string → gmap string JsValue → Settled unit)
    (rowId : string) (value : string) (st : State) (original : BudgetRow) :
  Js.allWhiteSpace value = true →
  findRow st.(rows) rowId = Some original →
  original.(budgetConsumed) ≠ "0" →
  let key := getErrorKey rowId FBudgetConsumed in
  let call := {| call_id := rowId;
                 call_payload := {[ "promx_budgetconsumed" := VNumber Js.pos_zero ]} |} in
  let result := handleCommit update rowId FBudgetConsumed value st in
  (Js.Number (Js.trim value) = Js.pos_zero ∧
   Js.isFinite (Js.Number (Js.trim value)) = true ∧
   Js.toString (Js.Number (Js.trim value)) = "0") ∧
  commitBegin rowId FBudgetConsumed value st
    = Awaiting (setSaving (λ current, <[key := true]> current) st) call "0" ∧
  result.2 = [call] ∧
  (∀ u, update rowId call.(call_payload) = Fulfilled u →
     budgetConsumed <$> findRow result.1.(rows) rowId = Some "0" ∧
     getDraftValue result.1.(drafts) rowId FBudgetConsumed = "0" ∧
     errorAt result.1 key = None ∧
     savingAt result.1 key = Some false).
Proof.
  intros Hws Hf Hne key call result. subst key call. cbn [call_payload].
  pose proof (trim_allWhiteSpace value Hws) as Htrim.
  assert (Hnum : Js.Number (Js.trim value) = Js.pos_zero) by (by rewrite Htrim).
  assert (Hv : passesValidation FBudgetConsumed value = true).
  { unfold passesValidation. by rewrite Hnum. }
  assert (Hnext : nextValueOf FBudgetConsumed value = "0").
  { unfold nextValueOf. cbn [bool_decide decide_rel]. by rewrite Hnum. }
  assert (Hpay : payloadOf FBudgetConsumed value
                 = {[ "promx_budgetconsumed" := VNumber Js.pos_zero ]}).
  { cbn [payloadOf]. by rewrite Hnum. }
  assert (Hne' : getField original FBudgetConsumed ≠ nextValueOf FBudgetConsumed value).
  { by rewrite Hnext. }
  split; [by rewrite Hnum|].
  split.
  { rewrite (commitBegin_changed _ _ _ _ _ Hf Hv Hne'). by rewrite Hnext, Hpay. }
  subst result. rewrite (handleCommit_changed _ _ _ _ _ _ Hf Hv Hne'), Hnext, Hpay.
  split; [done|]. intros u Hu. cbn [fst]. rewrite Hu.
  destruct (commitSettle_fulfilled rowId FBudgetConsumed "0" u
              (setSaving
                 (λ current, <[getErrorKey rowId FBudgetConsumed := true]> current) st))
    as (Hrows & _ & Hdraft & Herr & Hsav).
  split; [|done]. rewrite Hrows. cbn [setSaving rows].
  by rewrite (findRow_map_setField _ _ _ _ _ Hf).
Qed.

(** The amount field was cleared to two spaces. *)
Lemma commit_blank_budgetConsumed_stores_zero_witness :
  let update := λ (_ : string) (_ : gmap string JsValue), Fulfilled () in
  let result := handleCommit update "b1" FBudgetConsumed "  " exampleState in
  Js.allWhiteSpace "  " = true ∧
  result.2 = [ {| call_id := "b1";
                  call_payload := {[ "promx_budgetconsumed" := VNumber Js.pos_zero ]} |} ] ∧
  budgetConsumed <$> findRow result.1.(rows) "b1" = Some "0" ∧
  getDraftValue result.1.(drafts) "b1" FBudgetConsumed = "0" ∧
  errorAt result.1 "b1-budgetConsumed" = None.
Proof.
  intros update result.
  assert (Hws : Js.allWhiteSpace "  " = true) by reflexivity.
  assert (Hf : findRow exampleState.(rows) "b1" = Some (mapBudget exampleBudget))
    by reflexivity.
  destruct (commit_blank_budgetConsumed_stores_zero update "b1" "  " exampleState
              _ Hws Hf) as (_ & _ & Hcalls & Hok).
  { vm_compute. discriminate. }
  destruct (Hok () eq_refl) as (Hrow & Hdraft & Herr & _).
  split; [exact Hws|]. split; [exact Hcalls|]. by split.
Defined.

(** ** Isolation of field keys *)

Lemma dispatch_frame (st : State) (ev : Event) (rowId : string) (field : DraftField) :
  eventKey ev ≠ Some (rowId, field) →
  (dispatch st ev).1.(fieldErrors) !! getErrorKey rowId field
    = st.(fieldErrors) !! getErrorKey rowId field ∧
  (dispatch st ev).1.(saving) !! getErrorKey rowId field
    = st.(saving) !! getErrorKey rowId field.
Proof.
  destruct ev as [rowId' field' value|rowId' field' value|rowId' field' nextValue outcome
                 | |result]; simpl; intros Hne.
  - done.
  - assert (Hk : getErrorKey rowId' field' ≠ getErrorKey rowId field)
      by (apply getErrorKey_ne; congruence).
    unfold commitBegin. destruct (findRow st.(rows) rowId'); [|done].
    destruct (bool_decide (field' = FBudgetConsumed) && _); simpl.
    + by rewrite lookup_insert_ne.
    + destruct (String.eqb _ _); simpl; by rewrite lookup_insert_ne.
  - assert (Hk : getErrorKey rowId' field' ≠ getErrorKey rowId field)
      by (apply getErrorKey_ne; congruence).
    destruct outcome; simpl; by rewrite !lookup_insert_ne.
  - done.
  - by destruct result.
Qed.

Lemma run_frame (evs : list Event) (st : State) (rowId : string) (field : DraftField) :
  Forall (λ ev, eventKey ev ≠ Some (rowId, field)) evs →
  (run st evs).1.(fieldErrors) !! getErrorKey rowId field
    = st.(fieldErrors) !! getErrorKey rowId field ∧
  (run st evs).1.(saving) !! getErrorKey rowId field
    = st.(saving) !! getErrorKey rowId field.
Proof.
  revert st. induction evs as [|ev evs IH]; intros st Hall; [done|].
  apply Forall_cons in Hall as [Hev Hall].
  destruct (dispatch_frame st ev rowId field Hev) as [He Hs].
  cbn [run]. destruct (dispatch st ev) as [st1 calls1] eqn:Hd.
  specialize (IH st1 Hall). destruct (run st1 evs) as [st2 calls2].
  cbn [fst] in *. destruct IH as [IHe IHs]. by rewrite IHe, IHs.
Qed.

Lemma dispatch_clears (st : State) (ev : Event) (rowId : string) (field : DraftField)
    (message : string) :
  errorAt st (getErrorKey rowId field) = Some message →
  errorAt (dispatch st ev).1 (getErrorKey rowId field) = None →
  (∃ value original,
     ev = EvCommit rowId field value ∧
     findRow st.(rows) rowId = Some original ∧
     passesValidation field value = true ∧
     getField original field = nextValueOf field value) ∨
  (∃ nextValue u, ev = EvUpdateSettled rowId field nextValue (Fulfilled u)).
Proof.
  intros Hset Hclear.
  destruct (decide (eventKey ev = Some (rowId, field))) as [Hkey|Hkey].
  - destruct ev as [?|rowId' field' value|rowId' field' nextValue outcome| |?];
      try discriminate Hkey; injection Hkey as -> ->.
    + left. exists value. cbn [dispatch] in Hclear.
      destruct (findRow st.(rows) rowId) as [original|] eqn:Hf.
      * exists original. destruct (passesValidation field value) eqn:Hv.
        -- destruct (decide (getField original field = nextValueOf field value))
             as [Heq|Hne]; [done|].
           rewrite (commitBegin_changed _ _ _ _ _ Hf Hv Hne) in Hclear.
           cbn [fst] in Hclear. unfold errorAt in *. simpl in Hclear. congruence.
        -- apply passesValidation_false in Hv as [-> Hn].
           rewrite (commitBegin_invalid _ _ _ _ Hf Hn) in Hclear.
           unfold errorAt in Hclear. simpl in Hclear.
           by rewrite lookup_insert_eq in Hclear.
      * rewrite (commitBegin_missing _ _ _ _ Hf) in Hclear. cbn [fst] in Hclear.
        congruence.
    + destruct outcome as [u|error].
      * right. by exists nextValue, u.
      * cbn [dispatch fst] in Hclear.
        destruct (commitSettle_rejected rowId field nextValue error st)
          as (_ & _ & Herr & _). congruence.
  - exfalso. destruct (dispatch_frame st ev rowId field Hkey) as [He _].
    unfold errorAt in *. rewrite He in Hclear. congruence.
Qed.

(** C8.  An event that is not a commit of the field [(rowId, field)], nor
    the settling of one, leaves the error and the saving flag of that field
    as they are: an edit of any draft, a load, and a commit of any other
    field, in flight or not, touch [fieldErrors] and [saving] at their own
    key only.  So does any sequence of such events.  An error that is set
    and then found cleared was cleared by a commit of that same field that
    found the value unchanged or whose update succeeded. *)
Theorem field_error_isolation (rowId : string) (field : DraftField) :
  let key := getErrorKey rowId field in
  (∀ st ev, eventKey ev ≠ Some (rowId, field) →
     (dispatch st ev).1.(fieldErrors) !! key = st.(fieldErrors) !! key ∧
     (dispatch st ev).1.(saving) !! key = st.(saving) !! key) ∧
  (∀ st evs, Forall (λ ev, eventKey ev ≠ Some (rowId, field)) evs →
     (run st evs).1.(fieldErrors) !! key = st.(fieldErrors) !! key ∧
     (run st evs).1.(saving) !! key = st.(saving) !! key) ∧
  (∀ st rowId' field' value,
     (handleDraftChange rowId' field' value st).(fieldErrors) = st.(fieldErrors) ∧
     (handleDraftChange rowId' field' value st).(saving) = st.(saving)) ∧
  (∀ update st rowId' field' value, (rowId', field') ≠ (rowId, field) →
     (handleCommit update rowId' field' value st).1.(fieldErrors) !! key
       = st.(fieldErrors) !! key ∧
     (handleCommit update rowId' field' value st).1.(saving) !! key
       = st.(saving) !! key) ∧
  (∀ st ev message,
     errorAt st key = Some message → errorAt (dispatch st ev).1 key = None →
     (∃ value original,
        ev = EvCommit rowId field value ∧
        findRow st.(rows) rowId = Some original ∧
        passesValidation field value = true ∧
        getField original field = nextValueOf field value) ∨
     (∃ nextValue u, ev = EvUpdateSettled rowId field nextValue (Fulfilled u))).
Proof.
  intros key. subst key.
  split; [intros st ev; apply dispatch_frame|].
  split; [intros st evs; apply run_frame|].
  split; [done|].
  split; [|intros st ev message; apply dispatch_clears].
  intros update st rowId' field' value Hne.
  assert (Hev : eventKey (EvCommit rowId' field' value) ≠ Some (rowId, field))
    by (simpl; congruence).
  destruct (dispatch_frame st _ rowId field Hev) as [He Hs].
  unfold handleCommit. cbn [dispatch] in He, Hs.
  destruct (commitBegin rowId' field' value st) as [st1|st1 call nextValue];
    [done|].
  cbn [fst] in *.
  assert (Hev' : eventKey (EvUpdateSettled rowId' field' nextValue
                             (update call.(call_id) call.(call_payload)))
                 ≠ Some (rowId, field)) by (simpl; congruence).
  destruct (dispatch_frame st1 _ rowId field Hev') as [He' Hs'].
  cbn [dispatch fst] in He', Hs'. by rewrite He', Hs'.
Qed.

(** The amount of a row is in error; its name is then edited, committed
    and saved, and the grid reloaded: the error on the amount stays. *)
Lemma field_error_isolation_witness :
  let st := (handleCommit (λ _ _, Fulfilled ()) "b1" FBudgetConsumed "abc" exampleState).1 in
  let evs := [ EvDraftChange "b1" FName "Marketing Q3";
               EvCommit "b1" FName "Marketing Q3";
               EvUpdateSettled "b1" FName "Marketing Q3" (Fulfilled ());
               EvLoad;
               EvLoadSettled (Fulfilled (Some [exampleBudget])) ] in
  Forall (λ ev, eventKey ev ≠ Some ("b1", FBudgetConsumed)) evs ∧
  errorAt st "b1-budgetConsumed" = Some "Enter a valid number." ∧
  errorAt (run st evs).1 "b1-budgetConsumed" = Some "Enter a valid number.".
Proof.
  intros st evs.
  assert (Hall : Forall (λ ev, eventKey ev ≠ Some ("b1", FBudgetConsumed)) evs).
  { subst evs. repeat constructor; simpl; discriminate. }
  destruct (field_error_isolation "b1" FBudgetConsumed) as (_ & Hrun & _).
  destruct (Hrun st evs Hall) as [He _].
  split; [exact Hall|]. split; [reflexivity|].
  unfold errorAt. change "b1-budgetConsumed" with (getErrorKey "b1" FBudgetConsumed).
  rewrite He. reflexivity.
Defined.

(** * Further properties of the component *)

(** ** Keys, drafts and the guard of [handleCommit] *)

Lemma findRow_None (l : list BudgetRow) (rowId : string) :
  findRow l rowId = None ↔ rowId ∉ map id l.
Proof.
  unfold findRow. induction l as [|a l IH]; simpl.
  - split; [intros _; apply not_elem_of_nil|done].
  - rewrite not_elem_of_cons. destruct (String.eqb_spec a.(id) rowId) as [Heq|Hne].
    + split; [done|]. intros [Hne _]. by destruct Hne.
    + rewrite IH. split; [by split|by intros [_ ?]].
Qed.

Lemma withProp_overwrite (o : option PartialRow) (field : DraftField) (v v' : string) :
  withProp (Some (withProp o field v)) field v' = withProp o field v'.
Proof. by destruct field. Qed.

Lemma withProp_swap (o : option PartialRow) (field field' : DraftField) (v v' : string) :
  field ≠ field' →
  withProp (Some (withProp o field' v')) field v
  = withProp (Some (withProp o field v)) field' v'.
Proof. by destruct field, field'. Qed.

Lemma nextValueOf_text (field : DraftField) (value : string) :
  field ≠ FBudgetConsumed → nextValueOf field value = Js.trim value.
Proof. intros Hne. unfold nextValueOf. by rewrite bool_decide_eq_false_2. Qed.

Lemma passesValidation_text (field : DraftField) (value : string) :
  field ≠ FBudgetConsumed → passesValidation field value = true.
Proof. intros Hne. unfold passesValidation. by rewrite bool_decide_eq_false_2. Qed.

(** X1.  Two field keys are the same string exactly when they are made
    from the same row id and the same field, whatever characters the ids
    hold: the entries of [saving] and [fieldErrors] of two cells never
    share a key. *)
Theorem getErrorKey_determines_cell (rowId rowId' : string) (field field' : DraftField) :
  getErrorKey rowId field = getErrorKey rowId' field' ↔ rowId = rowId' ∧ field = field'.
Proof.
  split; [apply getErrorKey_inj|]. by intros [-> ->].
Qed.

(** X2.  Editing a field of a row id that has no draft creates a draft
    object holding that one property: the edited field reads back the
    value, the other two fields have no property and read as the empty
    string, and the object carries no id. *)
Theorem draft_change_on_unseeded_row
    (rowId : string) (field : DraftField) (value : string) (st : State) :
  st.(drafts) !! rowId = None →
  let st' := handleDraftChange rowId field value st in
  st'.(drafts) !! rowId = Some (withProp None field value) ∧
  getDraftValue st'.(drafts) rowId field = value ∧
  (∀ field', field' ≠ field →
     draftProp st'.(drafts) rowId field' = None ∧
     getDraftValue st'.(drafts) rowId field' = "") ∧
  (withProp None field value).(p_id) = None.
Proof.
  intros Hnone st'. subst st'. unfold handleDraftChange, setDrafts. cbn [drafts].
  rewrite Hnone.
  assert (Hl : <[rowId := withProp None field value]> st.(drafts) !! rowId
               = Some (withProp None field value)) by apply lookup_insert_eq.
  split; [exact Hl|]. unfold getDraftValue, draftProp. rewrite Hl.
  split; [by destruct field|]. split; [|by destruct field].
  intros field' Hne. by destruct field, field'.
Qed.

(** A keystroke for a row that was never loaded. *)
Lemma draft_change_on_unseeded_row_witness :
  let st' := handleDraftChange "ghost" FOwnerId "o9" initialState in
  initialState.(drafts) !! "ghost" = None ∧
  getDraftValue st'.(drafts) "ghost" FOwnerId = "o9" ∧
  getDraftValue st'.(drafts) "ghost" FName = "".
Proof.
  intros st'.
  assert (Hnone : initialState.(drafts) !! "ghost" = None) by reflexivity.
  destruct (draft_change_on_unseeded_row "ghost" FOwnerId "o9" initialState Hnone)
    as (_ & Hv & Hother & _).
  split; [exact Hnone|]. split; [exact Hv|].
  assert (Hne : FName ≠ FOwnerId) by discriminate.
  exact (proj2 (Hother FName Hne)).
Defined.

(** X3.  A commit for a row id that is not among the loaded rows returns
    at its guard: the state is the one it started from and no request is
    issued, whatever the field and the value, an unreadable amount
    included. *)
Theorem commit_unknown_row_does_nothing
    (update : string → gmap string JsValue → Settled unit)
    (rowId : string) (field : DraftField) (value : string) (st : State) :
  rowId ∉ map id st.(rows) →
  handleCommit update rowId field value st = (st, []) ∧
  dispatch st (EvCommit rowId field value) = (st, []).
Proof.
  intros Hni%findRow_None. unfold handleCommit, dispatch.
  by rewrite (commitBegin_missing _ _ _ _ Hni).
Qed.

(** "abc" as the amount of a row that is not in the grid. *)
Lemma commit_unknown_row_does_nothing_witness :
  ("b2" ∉ map id exampleState.(rows)) ∧
  handleCommit (λ _ _, Fulfilled ()) "b2" FBudgetConsumed "abc" exampleState
  = (exampleState, []).
Proof.
  assert (Hni : "b2" ∉ map id exampleState.(rows)).
  { apply (bool_decide_unpack _). vm_compute. exact I. }
  split; [exact Hni|].
  exact (proj1 (commit_unknown_row_does_nothing (λ _ _, Fulfilled ()) "b2"
                  FBudgetConsumed "abc" exampleState Hni)).
Defined.

(** X4.  Draft edits compose as writes to independent cells: at one cell
    the later edit wins, and edits of two different cells, of one row or
    of two, give the same state in either order. *)
Theorem draft_changes_compose
    (rowId rowId' : string) (field field' : DraftField) (value value' : string)
    (st : State) :
  handleDraftChange rowId field value' (handleDraftChange rowId field value st)
  = handleDraftChange rowId field value' st ∧
  ((rowId, field) ≠ (rowId', field') →
   handleDraftChange rowId field value (handleDraftChange rowId' field' value' st)
   = handleDraftChange rowId' field' value' (handleDraftChange rowId field value st)).
Proof.
  unfold handleDraftChange, setDrafts. cbn [drafts rows loading loadError saving
                                             fieldErrors]. split.
  - f_equal. by rewrite lookup_insert_eq, withProp_overwrite, insert_insert_eq.
  - intros Hne. f_equal. destruct (decide (rowId = rowId')) as [<-|Hid].
    + rewrite !lookup_insert_eq, !insert_insert_eq.
      rewrite (withProp_swap _ field field'); [done|congruence].
    + rewrite !lookup_insert_ne by done. by apply insert_insert_ne.
Qed.

(** X5.  After a commit of [name] or [ownerId] that succeeded, the draft
    holds the trimmed text, and committing the field again with the draft
    it now shows issues no request and leaves the state as it is. *)
Theorem recommit_text_field_is_noop
    (update update' : string → gmap string JsValue → Settled unit)
    (rowId : string) (field : DraftField) (value : string) (st : State)
    (original : BudgetRow) (u : unit) :
  field ≠ FBudgetConsumed →
  findRow st.(rows) rowId = Some original →
  getField original field ≠ Js.trim value →
  update rowId (payloadOf field value) = Fulfilled u →
  let result := handleCommit update rowId field value st in
  getDraftValue result.1.(drafts) rowId field = Js.trim value ∧
  findRow result.1.(rows) rowId = Some (setField original field (Js.trim value)) ∧
  handleCommit update' rowId field (getDraftValue result.1.(drafts) rowId field) result.1
  = (result.1, []).
Proof.
  intros Hfield Hf Hne Hu result.
  pose proof (passesValidation_text field value Hfield) as Hv.
  pose proof (nextValueOf_text field value Hfield) as Hnext.
  rewrite <- Hnext in Hne.
  set (st1 := setSaving (λ current, <[getErrorKey rowId field := true]> current) st).
  set (st' := commitSettle rowId field (Js.trim value) (Fulfilled u) st1).
  assert (Hres : result.1 = st').
  { subst result. rewrite (handleCommit_changed _ _ _ _ _ _ Hf Hv Hne).
    cbn [fst]. by rewrite Hu, Hnext. }
  rewrite Hres.
  destruct (commitSettle_fulfilled rowId field (Js.trim value) u st1)
    as (Hrows & _ & Hdraft & _).
  fold st' in Hrows, Hdraft.
  assert (Hf' : findRow st'.(rows) rowId
                = Some (setField original field (Js.trim value))).
  { rewrite Hrows. by apply findRow_map_setField. }
  split; [exact Hdraft|]. split; [exact Hf'|].
  rewrite Hdraft. unfold handleCommit.
  rewrite (commitBegin_unchanged _ _ _ _ _ Hf'
             (passesValidation_text field _ Hfield)).
  - f_equal. subst st' st1.
    unfold commitSettle, setFieldErrors, setSaving, setDrafts, setRows.
    simpl. f_equal. apply insert_insert_eq.
  - rewrite getField_setField, decide_True by done.
    by rewrite (nextValueOf_text _ _ Hfield), trim_trim.
Qed.

(** The owner of a loaded row is replaced by " o7 ". *)
Lemma recommit_text_field_is_noop_witness :
  let update := λ (_ : string) (_ : gmap string JsValue), Fulfilled () in
  let result := handleCommit update "b1" FOwnerId " o7 " exampleState in
  FOwnerId ≠ FBudgetConsumed ∧
  getDraftValue result.1.(drafts) "b1" FOwnerId = "o7" ∧
  handleCommit update "b1" FOwnerId "o7" result.1 = (result.1, []).
Proof.
  intros update result.
  assert (Hfield : FOwnerId ≠ FBudgetConsumed) by discriminate.
  assert (Hf : findRow exampleState.(rows) "b1" = Some (mapBudget exampleBudget))
    by reflexivity.
  destruct (recommit_text_field_is_noop update update "b1" FOwnerId " o7 " exampleState
              _ () Hfield Hf) as (Hdraft & _ & Hagain).
  { vm_compute. discriminate. }
  { reflexivity. }
  fold result in Hdraft, Hagain.
  split; [exact Hfield|]. split; [exact Hdraft|].
  by rewrite Hdraft in Hagain.
Defined.

(** ** What every run keeps *)

Lemma commitBegin_rows_drafts (rowId : string) (field : DraftField) (value : string)
    (st : State) :
  (dispatch st (EvCommit rowId field value)).1.(rows) = st.(rows) ∧
  (dispatch st (EvCommit rowId field value)).1.(drafts) = st.(drafts).
Proof.
  cbn [dispatch]. unfold commitBegin. destruct (findRow st.(rows) rowId); [|done].
  destruct (bool_decide (field = FBudgetConsumed) && _); [done|].
  by destruct (String.eqb _ _).
Qed.

Lemma completeFor_spread (r : BudgetRow) : completeFor r.(id) (spread r).
Proof. unfold completeFor. simpl. eauto. Qed.

Lemma completeFor_withProp (rowId : string) (o : PartialRow) (field : DraftField)
    (v : string) :
  completeFor rowId o → completeFor rowId (withProp (Some o) field v).
Proof.
  unfold completeFor. intros (Hid & Hn & Hb & Ho).
  destruct field; simpl; eauto.
Qed.

Lemma seedDrafts_complete (l : list BudgetRow) (acc : gmap string PartialRow) (i : string)
    (o : PartialRow) :
  (∀ j p, acc !! j = Some p → completeFor j p) →
  foldl (λ draftSeed item, <[item.(id) := spread item]> draftSeed) acc l !! i = Some o →
  completeFor i o.
Proof.
  revert acc. induction l as [|a l IH]; intros acc Hacc; simpl; [apply Hacc|].
  apply IH. intros j p. rewrite lookup_insert. case_decide as Hj.
  - intros [= <-]. subst j. apply completeFor_spread.
  - apply Hacc.
Qed.

Lemma seedDrafts_keeps (l : list BudgetRow) (acc : gmap string PartialRow) (i : string) :
  is_Some (acc !! i) →
  is_Some (foldl (λ draftSeed item, <[item.(id) := spread item]> draftSeed) acc l !! i).
Proof.
  revert acc. induction l as [|a l IH]; intros acc Hi; simpl; [done|].
  apply IH. rewrite lookup_insert. by case_decide.
Qed.

Lemma seedDrafts_covers (l : list BudgetRow) (acc : gmap string PartialRow)
    (r : BudgetRow) :
  r ∈ l →
  is_Some (foldl (λ draftSeed item, <[item.(id) := spread item]> draftSeed) acc l
             !! r.(id)).
Proof.
  revert acc. induction l as [|a l IH]; intros acc Hin; simpl.
  - by apply elem_of_nil in Hin.
  - apply elem_of_cons in Hin as [->|Hin]; [|by apply IH].
    apply seedDrafts_keeps. rewrite lookup_insert_eq. by eexists.
Qed.

Lemma draftsCoverRows_dispatch (st : State) (ev : Event) :
  draftsCoverRows st → draftsCoverRows (dispatch st ev).1.
Proof.
  intros Hinv.
  destruct ev as [rowId field value|rowId field value|rowId field nextValue outcome
                 | |result].
  - intros r Hr. cbn [dispatch fst handleDraftChange setDrafts rows drafts] in *.
    destruct (Hinv r Hr) as (o & Ho & Hc).
    destruct (decide (rowId = r.(id))) as [->|Hne].
    + rewrite lookup_insert_eq, Ho. eexists. split; [done|].
      by apply completeFor_withProp.
    + rewrite lookup_insert_ne by done. eauto.
  - destruct (commitBegin_rows_drafts rowId field value st) as [Hr Hd].
    intros r. rewrite Hr, Hd. apply Hinv.
  - destruct outcome as [u|error]; [|exact Hinv].
    intros r' Hr'. cbn [dispatch fst] in Hr' |- *.
    destruct (commitSettle_fulfilled rowId field nextValue u st) as (Hrows & _).
    rewrite Hrows in Hr'. apply list_elem_of_fmap in Hr' as (r & -> & Hr).
    destruct (Hinv r Hr) as (o & Ho & Hc).
    assert (Hid : (if String.eqb r.(id) rowId then setField r field nextValue else r).(id)
                  = r.(id)).
    { destruct (String.eqb r.(id) rowId); [apply id_setField|done]. }
    rewrite Hid. cbn [commitSettle setSaving setFieldErrors setDrafts setRows drafts].
    destruct (decide (rowId = r.(id))) as [->|Hne].
    + rewrite lookup_insert_eq, Ho. eexists. split; [done|].
      by apply completeFor_withProp.
    + rewrite lookup_insert_ne by done. eauto.
  - exact Hinv.
  - destruct result as [data|error]; [|exact Hinv].
    intros r Hr. cbn [dispatch fst loadSettle setLoading setDrafts setRows rows drafts]
      in Hr |- *.
    destruct (seedDrafts_covers (map mapBudget (default [] data)) ∅ r Hr) as [o Ho].
    exists o. split; [exact Ho|].
    apply (seedDrafts_complete _ ∅ _ _ ltac:(by intros j p Hj) Ho).
Qed.

Lemma draftsCoverRows_run (evs : list Event) (st : State) :
  draftsCoverRows st → draftsCoverRows (run st evs).1.
Proof.
  revert st. induction evs as [|ev evs IH]; intros st Hinv; [done|].
  cbn [run]. pose proof (draftsCoverRows_dispatch st ev Hinv) as H1.
  destruct (dispatch st ev) as [st1 calls1]. specialize (IH st1 H1).
  by destruct (run st1 evs) as [st2 calls2].
Qed.

(** X6.  After any sequence of events from the initial state, loads,
    edits, commits and responses in any order, every row of the grid has a
    draft object under its id that carries that id and all three editable
    properties: for a row that is shown, [getDraftValue] reads a property
    that is there and never falls back to the empty string. *)
Theorem loaded_rows_have_complete_drafts (evs : list Event) :
  let st := (run initialState evs).1 in
  draftsCoverRows st ∧
  (∀ r field, r ∈ st.(rows) →
     ∃ v, draftProp st.(drafts) r.(id) field = Some v ∧
          getDraftValue st.(drafts) r.(id) field = v).
Proof.
  intros st.
  assert (Hinv : draftsCoverRows st).
  { apply draftsCoverRows_run. intros r Hr. by apply elem_of_nil in Hr. }
  split; [exact Hinv|]. intros r field Hr.
  destruct (Hinv r Hr) as (o & Ho & (_ & [n Hn] & [b Hb] & [w Hw])).
  unfold getDraftValue, draftProp. rewrite Ho.
  destruct field; simpl; [rewrite Hn|rewrite Hb|rewrite Hw]; eauto.
Qed.

(** A load, an edit, a commit and its response. *)
Lemma loaded_rows_have_complete_drafts_witness :
  let evs := [ EvLoad; EvLoadSettled (Fulfilled (Some [exampleBudget]));
               EvDraftChange "b1" FName "Marketing Q3";
               EvCommit "b1" FName "Marketing Q3";
               EvUpdateSettled "b1" FName "Marketing Q3" (Fulfilled ()) ] in
  let st := (run initialState evs).1 in
  setField (mapBudget exampleBudget) FName "Marketing Q3" ∈ st.(rows) ∧
  draftProp st.(drafts) "b1" FOwnerId = Some "o1".
Proof.
  intros evs st.
  assert (Hin : setField (mapBudget exampleBudget) FName "Marketing Q3" ∈ st.(rows)).
  { vm_compute. constructor. }
  destruct (loaded_rows_have_complete_drafts evs) as [_ H].
  destruct (H _ FOwnerId Hin) as (v & Hv & _).
  split; [exact Hin|reflexivity].
Defined.

Lemma map_id_commit (l : list BudgetRow) (rowId : string) (field : DraftField)
    (v : string) :
  map id (map (λ row, if String.eqb row.(id) rowId then setField row field v else row) l)
  = map id l.
Proof.
  induction l as [|a l IH]; [done|]. simpl. rewrite IH. f_equal.
  destruct (String.eqb a.(id) rowId); [apply id_setField|done].
Qed.

Lemma row_ids_dispatch (st : State) (ev : Event) :
  (∀ data, ev ≠ EvLoadSettled (Fulfilled data)) →
  map id (dispatch st ev).1.(rows) = map id st.(rows).
Proof.
  intros Hev.
  destruct ev as [rowId field value|rowId field value|rowId field nextValue outcome
                 | |result].
  - done.
  - by rewrite (proj1 (commitBegin_rows_drafts rowId field value st)).
  - destruct outcome as [u|error]; [|done]. cbn [dispatch fst].
    rewrite (proj1 (commitSettle_fulfilled rowId field nextValue u st)).
    apply map_id_commit.
  - done.
  - destruct result as [data|error]; [|done]. by destruct (Hev data).
Qed.

(** X7.  Only a load that succeeds changes which rows the grid holds: any
    other event, and any sequence of them, keeps the number of rows, their
    ids and their order; an edit, a commit or a response never adds,
    drops or moves a row. *)
Theorem row_ids_change_only_on_load (st : State) (evs : list Event) :
  Forall (λ ev, ∀ data, ev ≠ EvLoadSettled (Fulfilled data)) evs →
  map id (run st evs).1.(rows) = map id st.(rows) ∧
  length (run st evs).1.(rows) = length st.(rows).
Proof.
  intros Hall.
  assert (Hids : map id (run st evs).1.(rows) = map id st.(rows)).
  { revert st. induction evs as [|ev evs IH]; intros st; [done|].
    apply Forall_cons in Hall as [Hev Hall]. cbn [run].
    pose proof (row_ids_dispatch st ev Hev) as H1.
    destruct (dispatch st ev) as [st1 calls1]. specialize (IH Hall st1).
    destruct (run st1 evs) as [st2 calls2]. cbn [fst] in *. congruence. }
  split; [exact Hids|].
  by rewrite <- (length_map id (run st evs).1.(rows)), Hids, length_map.
Qed.

(** An edit, a commit that fails, and a refresh that fails. *)
Lemma row_ids_change_only_on_load_witness :
  let evs := [ EvDraftChange "b1" FName "Marketing Q3";
               EvCommit "b1" FName "Marketing Q3";
               EvUpdateSettled "b1" FName "Marketing Q3" (Rejected ThrownOther);
               EvLoad; EvLoadSettled (Rejected (ThrownError "offline")) ] in
  Forall (λ ev, ∀ data, ev ≠ EvLoadSettled (Fulfilled data)) evs ∧
  map id (run exampleState evs).1.(rows) = ["b1"].
Proof.
  intros evs.
  assert (Hall : Forall (λ ev, ∀ data, ev ≠ EvLoadSettled (Fulfilled data)) evs).
  { subst evs. repeat constructor; intros data; discriminate. }
  split; [exact Hall|].
  exact (proj1 (row_ids_change_only_on_load exampleState evs Hall)).
Defined.

(** X8.  The response to an update that succeeded rewrites one field:
    every row keeps its place and its id, the rows carrying the committed
    id get the new value at the committed field and keep their other
    fields, every other row is the row it was, and the drafts of all other
    ids are untouched. *)
Theorem commit_success_rewrites_one_field
    (rowId : string) (field : DraftField) (nextValue : string) (u : unit) (st : State) :
  let st' := commitSettle rowId field nextValue (Fulfilled u) st in
  length st'.(rows) = length st.(rows) ∧
  (∀ (n : nat) (r : BudgetRow), st.(rows) !! n = Some r →
     ∃ r', st'.(rows) !! n = Some r' ∧ r'.(id) = r.(id) ∧
           (r.(id) ≠ rowId → r' = r) ∧
           (∀ field', getField r' field' =
                      if decide (r.(id) = rowId ∧ field' = field) then nextValue
                      else getField r field')) ∧
  (∀ rowId', rowId' ≠ rowId → st'.(drafts) !! rowId' = st.(drafts) !! rowId') ∧
  (∀ field', field' ≠ field →
     draftProp st'.(drafts) rowId field' = draftProp st.(drafts) rowId field').
Proof.
  intros st'. subst st'.
  cbn [commitSettle setSaving setFieldErrors setDrafts setRows rows drafts].
  split; [apply length_map|]. split; [|split].
  - intros n r Hn. rewrite list_lookup_fmap, Hn. simpl.
    eexists. split; [reflexivity|].
    destruct (String.eqb_spec r.(id) rowId) as [Heq|Hne].
    + split; [apply id_setField|]. split; [done|].
      intros field'. rewrite getField_setField.
      destruct (decide (field = field')) as [<-|Hf].
      * by rewrite decide_True.
      * rewrite decide_False; [done|]. intros [_ ?]. by apply Hf.
    + split; [done|]. split; [done|]. intros field'.
      rewrite decide_False; [done|]. by intros [? _].
  - intros rowId' Hne. by rewrite lookup_insert_ne.
  - intros field' Hne. rewrite draftProp_insert_withProp.
    rewrite decide_False; [done|]. congruence.
Qed.

(** ** The requests that go out *)

Lemma dispatch_calls (st : State) (ev : Event) (call : UpdateCall) :
  call ∈ (dispatch st ev).2 →
  ∃ rowId field value original,
    ev = EvCommit rowId field value ∧
    findRow st.(rows) rowId = Some original ∧
    passesValidation field value = true ∧
    getField original field ≠ nextValueOf field value ∧
    (dispatch st ev).2 = [call] ∧
    call = {| call_id := rowId; call_payload := payloadOf field value |}.
Proof.
  destruct ev as [rowId field value|rowId field value|rowId field nextValue outcome
                 | |result]; cbn [dispatch snd];
    try (by intros ?%elem_of_nil).
  destruct (findRow st.(rows) rowId) as [original|] eqn:Hf.
  - destruct (passesValidation field value) eqn:Hv.
    + destruct (decide (getField original field = nextValueOf field value))
        as [Heq|Hne].
      * rewrite (commitBegin_unchanged _ _ _ _ _ Hf Hv Heq). by intros ?%elem_of_nil.
      * rewrite (commitBegin_changed _ _ _ _ _ Hf Hv Hne).
        intros ->%list_elem_of_singleton. by exists rowId, field, value, original.
    + apply passesValidation_false in Hv as [-> Hn].
      rewrite (commitBegin_invalid _ _ _ _ Hf Hn). by intros ?%elem_of_nil.
  - rewrite (commitBegin_missing _ _ _ _ Hf). by intros ?%elem_of_nil.
Qed.

Lemma run_calls (evs : list Event) (st : State) (call : UpdateCall) :
  call ∈ (run st evs).2 → ∃ st0 ev, ev ∈ evs ∧ call ∈ (dispatch st0 ev).2.
Proof.
  revert st. induction evs as [|ev evs IH]; intros st; cbn [run].
  - by intros ?%elem_of_nil.
  - destruct (dispatch st ev) as [st1 calls1] eqn:Hd.
    specialize (IH st1). destruct (run st1 evs) as [st2 calls2]. cbn [snd] in *.
    intros [Hin|Hin]%elem_of_app.
    + exists st, ev. rewrite Hd. split; [constructor|done].
    + destruct (IH Hin) as (st0 & ev0 & Hev & Hc). exists st0, ev0.
      split; [by constructor|done].
Qed.

(** X9.  Every update request issued in any run, from any state, names
    the one changed attribute and nothing else: its payload has exactly one
    entry, under [promx_name], [promx_budgetconsumed] or [ownerid]; a
    number in it is finite, so the store is never sent [NaN] or an
    infinity; and a string in it has no white space at either end. *)
Theorem update_calls_carry_one_attribute
    (st : State) (evs : list Event) (call : UpdateCall) :
  call ∈ (run st evs).2 →
  size call.(call_payload) = 1%nat ∧
  (∃ v, call.(call_payload) = {[ "promx_name" := v ]} ∨
        call.(call_payload) = {[ "promx_budgetconsumed" := v ]} ∨
        call.(call_payload) = {[ "ownerid" := v ]}) ∧
  (∀ key x, call.(call_payload) !! key = Some (VNumber x) → Js.isFinite x = true) ∧
  (∀ key s, call.(call_payload) !! key = Some (VString s) → Js.trim s = s).
Proof.
  intros (st0 & ev & _ & Hc)%run_calls.
  apply dispatch_calls in Hc
    as (rowId & field & value & original & _ & _ & Hv & _ & _ & ->).
  cbn [call_payload]. split; [|split; [|split]].
  - destruct field; apply map_size_singleton.
  - destruct field; eexists; eauto.
  - intros key x. destruct field; cbn [payloadOf];
      intros [_ Hx]%lookup_singleton_Some; try discriminate Hx.
    injection Hx as <-. exact Hv.
  - intros key s. destruct field; cbn [payloadOf];
      intros [_ Hs]%lookup_singleton_Some; try discriminate Hs;
      injection Hs as <-; apply trim_trim.
Qed.

(** The one request of an edit followed by its commit. *)
Lemma update_calls_carry_one_attribute_witness :
  let evs := [ EvDraftChange "b1" FBudgetConsumed " 42.50 ";
               EvCommit "b1" FBudgetConsumed " 42.50 " ] in
  let call := {| call_id := "b1";
                 call_payload :=
                   {[ "promx_budgetconsumed"
                      := VNumber (S754_finite false 5981343255101440 (-47)) ]} |} in
  call ∈ (run exampleState evs).2 ∧ size call.(call_payload) = 1%nat.
Proof.
  intros evs call.
  assert (Hin : call ∈ (run exampleState evs).2).
  { assert (Hr : (run exampleState evs).2 = [call]) by (vm_compute; reflexivity).
    rewrite Hr. constructor. }
  split; [exact Hin|].
  exact (proj1 (update_calls_carry_one_attribute exampleState evs call Hin)).
Defined.

(** ** Requests in flight *)

Lemma setField_overwrite (r : BudgetRow) (field : DraftField) (v v' : string) :
  setField (setField r field v) field v' = setField r field v'.
Proof. by destruct field. Qed.

Lemma dispatch_commit_changed (rowId : string) (field : DraftField) (value : string)
    (st : State) (original : BudgetRow) :
  findRow st.(rows) rowId = Some original →
  passesValidation field value = true →
  getField original field ≠ nextValueOf field value →
  dispatch st (EvCommit rowId field value) =
  (setSaving (λ current, <[getErrorKey rowId field := true]> current) st,
   [ {| call_id := rowId; call_payload := payloadOf field value |} ]).
Proof.
  intros Hf Hv Hne. cbn [dispatch].
  by rewrite (commitBegin_changed _ _ _ _ _ Hf Hv Hne).
Qed.

(** X10.  Two commits of one field may be in flight together: nothing
    cancels the first.  Both requests go out, in the order of the commits.
    When both succeed and the response to the second arrives first, that
    response already clears the saving flag although the first request is
    still in flight, and the response to the first then overwrites the row
    and the draft: the grid ends on the value of the first commit, the one
    the store received first. *)
Theorem overlapping_commits_last_response_wins
    (rowId : string) (field : DraftField) (valueA valueB : string) (st : State)
    (original : BudgetRow) (uA uB : unit) :
  findRow st.(rows) rowId = Some original →
  passesValidation field valueA = true →
  passesValidation field valueB = true →
  getField original field ≠ nextValueOf field valueA →
  getField original field ≠ nextValueOf field valueB →
  let commits := [ EvCommit rowId field valueA; EvCommit rowId field valueB ] in
  let responseB := EvUpdateSettled rowId field (nextValueOf field valueB) (Fulfilled uB) in
  let responseA := EvUpdateSettled rowId field (nextValueOf field valueA) (Fulfilled uA) in
  let key := getErrorKey rowId field in
  (run st (commits ++ [responseB; responseA])).2
    = [ {| call_id := rowId; call_payload := payloadOf field valueA |};
        {| call_id := rowId; call_payload := payloadOf field valueB |} ] ∧
  savingAt (run st commits).1 key = Some true ∧
  savingAt (run st (commits ++ [responseB])).1 key = Some false ∧
  findRow (run st (commits ++ [responseB])).1.(rows) rowId
    = Some (setField original field (nextValueOf field valueB)) ∧
  findRow (run st (commits ++ [responseB; responseA])).1.(rows) rowId
    = Some (setField original field (nextValueOf field valueA)) ∧
  getDraftValue (run st (commits ++ [responseB; responseA])).1.(drafts) rowId field
    = nextValueOf field valueA.
Proof.
  intros Hf HvA HvB HneA HneB commits responseB responseA key.
  subst commits responseB responseA key.
  set (st1 := setSaving (λ current, <[getErrorKey rowId field := true]> current) st).
  set (st2 := setSaving (λ current, <[getErrorKey rowId field := true]> current) st1).
  assert (H1 : dispatch st (EvCommit rowId field valueA)
               = (st1, [ {| call_id := rowId; call_payload := payloadOf field valueA |} ]))
    by (by apply dispatch_commit_changed with original).
  assert (H2 : dispatch st1 (EvCommit rowId field valueB)
               = (st2, [ {| call_id := rowId; call_payload := payloadOf field valueB |} ]))
    by (by apply dispatch_commit_changed with original).
  cbn [app run]. rewrite H1, H2. cbn [dispatch fst snd app].
  destruct (commitSettle_fulfilled rowId field (nextValueOf field valueB) uB st2)
    as (HrowsB & _ & _ & _ & HsavB).
  set (st3 := commitSettle rowId field (nextValueOf field valueB) (Fulfilled uB) st2)
    in *.
  destruct (commitSettle_fulfilled rowId field (nextValueOf field valueA) uA st3)
    as (HrowsA & _ & HdraftA & _).
  assert (HfB : findRow st3.(rows) rowId
                = Some (setField original field (nextValueOf field valueB))).
  { rewrite HrowsB. by apply findRow_map_setField. }
  split; [done|]. split.
  { unfold savingAt, st2. cbn [setSaving saving]. apply lookup_insert_eq. }
  split; [exact HsavB|]. split; [exact HfB|]. split; [|exact HdraftA].
  rewrite HrowsA, (findRow_map_setField _ _ _ _ _ HfB). by rewrite setField_overwrite.
Qed.

(** "Q3" then "Q4" typed and committed before any response. *)
Lemma overlapping_commits_last_response_wins_witness :
  let evs := [ EvCommit "b1" FName "Q3"; EvCommit "b1" FName "Q4";
               EvUpdateSettled "b1" FName "Q4" (Fulfilled ());
               EvUpdateSettled "b1" FName "Q3" (Fulfilled ()) ] in
  passesValidation FName "Q3" = true ∧
  (run exampleState evs).2
    = [ {| call_id := "b1"; call_payload := {[ "promx_name" := VString "Q3" ]} |};
        {| call_id := "b1"; call_payload := {[ "promx_name" := VString "Q4" ]} |} ] ∧
  name <$> findRow (run exampleState evs).1.(rows) "b1" = Some "Q3".
Proof.
  intros evs.
  assert (Hf : findRow exampleState.(rows) "b1" = Some (mapBudget exampleBudget))
    by reflexivity.
  assert (HvA : passesValidation FName "Q3" = true) by reflexivity.
  assert (HvB : passesValidation FName "Q4" = true) by reflexivity.
  destruct (overlapping_commits_last_response_wins "b1" FName "Q3" "Q4" exampleState
              _ () () Hf HvA HvB) as (Hcalls & _ & _ & _ & Hrow & _).
  { vm_compute. discriminate. }
  { vm_compute. discriminate. }
  split; [exact HvA|]. split; [exact Hcalls|].
  change (name <$> findRow (run exampleState
                              ([EvCommit "b1" FName "Q3"; EvCommit "b1" FName "Q4"]
                               ++ [EvUpdateSettled "b1" FName
                                     (nextValueOf FName "Q4") (Fulfilled ());
                                   EvUpdateSettled "b1" FName
                                     (nextValueOf FName "Q3") (Fulfilled ())])).1.(rows)
                       "b1" = Some "Q3").
  by rewrite Hrow.
Defined.

Lemma map_commit_absent (l : list BudgetRow) (rowId : string) (field : DraftField)
    (v : string) :
  rowId ∉ map id l →
  map (λ row, if String.eqb row.(id) rowId then setField row field v else row) l = l.
Proof.
  induction l as [|a l IH]; [done|]. simpl.
  intros [Hne Hni]%not_elem_of_cons. rewrite IH by done.
  destruct (String.eqb_spec a.(id) rowId) as [Heq|_]; [|done]. by destruct Hne.
Qed.

(** X11.  When a reload that succeeds drops a row while an update for it
    is in flight, the response that arrives afterwards leaves the reloaded
    rows as they are but still writes the draft: a draft object appears
    under the vanished id holding only the committed field, its other
    fields read as the empty string, and the field's error and saving
    entries are written as for a row that is there. *)
Theorem response_after_reload_dropped_row
    (rowId : string) (field : DraftField) (value : string) (st : State)
    (original : BudgetRow) (data : option (list Promx_budgets)) (u : unit) :
  findRow st.(rows) rowId = Some original →
  passesValidation field value = true →
  getField original field ≠ nextValueOf field value →
  rowId ∉ map promx_budgetid (default [] data) →
  let evs := [ EvCommit rowId field value; EvLoad; EvLoadSettled (Fulfilled data);
               EvUpdateSettled rowId field (nextValueOf field value) (Fulfilled u) ] in
  let st' := (run st evs).1 in
  st'.(rows) = map mapBudget (default [] data) ∧
  st'.(drafts) !! rowId = Some (withProp None field (nextValueOf field value)) ∧
  (∀ field', field' ≠ field → getDraftValue st'.(drafts) rowId field' = "") ∧
  errorAt st' (getErrorKey rowId field) = None ∧
  savingAt st' (getErrorKey rowId field) = Some false.
Proof.
  intros Hf Hv Hne Hni evs st'. subst st' evs.
  cbn [run]. rewrite (dispatch_commit_changed _ _ _ _ _ Hf Hv Hne).
  cbn [dispatch run fst snd].
  set (mapped := map mapBudget (default [] data)).
  assert (Hni' : rowId ∉ map id mapped).
  { unfold mapped. by rewrite map_id_mapBudget. }
  assert (Hseed : seedDrafts mapped !! rowId = None).
  { unfold seedDrafts. by rewrite (seed_other mapped ∅ rowId Hni'). }
  cbn [commitSettle loadSettle loadBegin setSaving setFieldErrors setDrafts setRows
       setLoading setLoadError rows drafts].
  fold mapped. rewrite Hseed.
  split; [by apply map_commit_absent|].
  assert (Hl : <[rowId := withProp None field (nextValueOf field value)]>
                 (seedDrafts mapped) !! rowId
               = Some (withProp None field (nextValueOf field value)))
    by apply lookup_insert_eq.
  split; [exact Hl|]. split.
  - intros field' Hf'. unfold getDraftValue. rewrite Hl. by destruct field, field'.
  - unfold errorAt, savingAt.
    cbn [commitSettle setSaving setFieldErrors setDrafts setRows fieldErrors saving].
    by rewrite !lookup_insert_eq.
Qed.

(** The name of "b1" is being saved when a refresh returns no rows. *)
Lemma response_after_reload_dropped_row_witness :
  let evs := [ EvCommit "b1" FName "Q3"; EvLoad; EvLoadSettled (Fulfilled (Some []));
               EvUpdateSettled "b1" FName "Q3" (Fulfilled ()) ] in
  let st' := (run exampleState evs).1 in
  passesValidation FName "Q3" = true ∧
  st'.(rows) = [] ∧
  getDraftValue st'.(drafts) "b1" FName = "Q3" ∧
  getDraftValue st'.(drafts) "b1" FOwnerId = "".
Proof.
  intros evs st'.
  assert (Hf : findRow exampleState.(rows) "b1" = Some (mapBudget exampleBudget))
    by reflexivity.
  assert (Hv : passesValidation FName "Q3" = true) by reflexivity.
  destruct (response_after_reload_dropped_row "b1" FName "Q3" exampleState _
              (Some []) () Hf Hv) as (Hrows & _ & Hother & _).
  { vm_compute. discriminate. }
  { simpl. apply not_elem_of_nil. }
  split; [exact Hv|]. split; [exact Hrows|]. split; [reflexivity|].
  assert (Hne : FOwnerId ≠ FName) by discriminate.
  exact (Hother FOwnerId Hne).
Defined.

(** ** Loading and what is shown *)

(** X12.  A load that succeeds replaces the rows and the drafts wholesale:
    what they become depends on the fetched data only, an edit made before
    the load is forgotten, and data that is not an array gives no rows and
    no drafts.  The saving flags and the field errors are carried over as
    they are, so an error of a field outlives the reload of its row. *)
Theorem load_success_replaces_rows_and_drafts
    (data : option (list Promx_budgets)) (st st2 : State) :
  let st' := loadBudgets (Fulfilled data) st in
  (st'.(rows) = (loadBudgets (Fulfilled data) st2).(rows) ∧
   st'.(drafts) = (loadBudgets (Fulfilled data) st2).(drafts)) ∧
  (∀ rowId field value,
     loadBudgets (Fulfilled data) (handleDraftChange rowId field value st) = st') ∧
  (data = None → st'.(rows) = [] ∧ st'.(drafts) = ∅) ∧
  (st'.(saving) = st.(saving) ∧ st'.(fieldErrors) = st.(fieldErrors)) ∧
  (∀ key, errorAt st' key = errorAt st key).
Proof.
  simpl. split; [done|]. split; [done|]. split; [by intros ->|]. done.
Qed.

Lemma truthyString_Some (s : string) :
  truthyString (Some s) = if decide (s = "") then None else Some s.
Proof.
  unfold truthyString. destruct (String.eqb_spec s "") as [->|Hne].
  - by rewrite decide_True.
  - by rewrite decide_False.
Qed.

(** X13.  What the panel shows around a load.  While the request is in
    flight it is the skeleton and the Refresh button is disabled.  After a
    success it is the empty state when no row came back, the grid of the
    mapped rows otherwise, and never an earlier load error.  After a
    failure with a message it is that message, in place of the rows that
    are kept; after a failure whose message is the empty string no error
    is shown and the rows held before are. *)
Theorem panel_after_load (result : GetAllResult) (st : State) :
  (panel (loadBegin st) = PanelSkeleton ∧ refreshDisabled (loadBegin st) = true) ∧
  refreshDisabled (loadBudgets result st) = false ∧
  panel (loadBudgets result st) =
    match result with
    | Fulfilled data =>
        match default [] data with
        | [] => PanelEmpty
        | _ :: _ => PanelGrid (map mapBudget (default [] data))
        end
    | Rejected error =>
        if decide (loadErrorMessage error = "") then
          match st.(rows) with
          | [] => PanelEmpty
          | _ :: _ => PanelGrid st.(rows)
          end
        else PanelLoadError (loadErrorMessage error)
    end.
Proof.
  split; [done|]. split; [done|].
  destruct result as [data|error]; unfold panel, loadBudgets, loadSettle, loadBegin;
    cbn [setLoading setLoadError setDrafts setRows loading loadError rows].
  - cbn [truthyString]. by destruct (default [] data).
  - rewrite truthyString_Some. case_decide; [|done]. by destruct st.(rows).
Qed.

(** ** Cells *)

(** X14.  While the update of a commit is in flight the cell shows
    "Saving..." and keeps showing the value typed and whatever error the
    field had before: starting a commit does not clear the previous error.
    Once the request has settled, whatever the outcome and whatever
    happened in between, "Saving..." is gone. *)
Theorem cell_while_commit_in_flight
    (item : BudgetRow) (field : DraftField) (value : string) (st : State)
    (original : BudgetRow) :
  findRow st.(rows) item.(id) = Some original →
  passesValidation field value = true →
  getField original field ≠ nextValueOf field value →
  let st1 := (dispatch st (EvCommit item.(id) field value)).1 in
  showsSaving (editableField st1 item field) = true ∧
  shownError (editableField st1 item field) = shownError (editableField st item field) ∧
  (editableField st1 item field).(ef_value) = (editableField st item field).(ef_value) ∧
  (∀ nextValue outcome st0,
     showsSaving (editableField (commitSettle item.(id) field nextValue outcome st0)
                                item field) = false).
Proof.
  intros Hf Hv Hne st1. subst st1.
  rewrite (dispatch_commit_changed _ _ _ _ _ Hf Hv Hne). cbn [fst].
  unfold showsSaving, shownError, editableField. cbn [ef_saving ef_error ef_value].
  split; [|split; [done|split; [done|]]].
  - unfold savingAt. cbn [setSaving saving]. by rewrite lookup_insert_eq.
  - intros nextValue outcome st0. by rewrite commitSettle_saving.
Qed.

(** A second attempt at the name while the error of the first is shown. *)
Lemma cell_while_commit_in_flight_witness :
  let item := mapBudget exampleBudget in
  let st := (handleCommit (λ _ _, Rejected (ThrownError "network timeout"))
                          "b1" FName "Q3" exampleState).1 in
  let st1 := (dispatch st (EvCommit "b1" FName "Q3")).1 in
  passesValidation FName "Q3" = true ∧
  showsSaving (editableField st1 item FName) = true ∧
  shownError (editableField st1 item FName) = Some "network timeout".
Proof.
  intros item st st1.
  assert (Hf : findRow st.(rows) item.(id) = Some item) by reflexivity.
  assert (Hv : passesValidation FName "Q3" = true) by reflexivity.
  destruct (cell_while_commit_in_flight item FName "Q3" st item Hf Hv)
    as (Hsav & Herr & _).
  { vm_compute. discriminate. }
  split; [exact Hv|]. split; [exact Hsav|].
  change (shownError (editableField (dispatch st (EvCommit item.(id) FName "Q3")).1
                                    item FName) = Some "network timeout").
  rewrite Herr. reflexivity.
Defined.

Lemma loaded_cell (data : list Promx_budgets) (budget : Promx_budgets)
    (field : DraftField) (st : State) :
  NoDup (map promx_budgetid data) →
  budget ∈ data →
  let st' := loadBudgets (Fulfilled (Some data)) st in
  findRow st'.(rows) budget.(promx_budgetid) = Some (mapBudget budget) ∧
  onBlur (editableField st' (mapBudget budget) field)
  = EvCommit budget.(promx_budgetid) field (default "" (attributeOf budget field)).
Proof.
  intros Hnd Hin. simpl. set (mapped := map mapBudget data).
  assert (Hnd' : NoDup (map id mapped)) by (unfold mapped; by rewrite map_id_mapBudget).
  assert (Hin' : mapBudget budget ∈ mapped).
  { unfold mapped. apply list_elem_of_fmap. by exists budget. }
  split; [exact (findRow_unique mapped (mapBudget budget) Hnd' Hin')|].
  unfold onBlur, editableField. cbn [ef_item ef_field ef_value id mapBudget].
  f_equal. rewrite <- getField_mapBudget.
  eapply getDraftValue_lookup; [|apply prop_spread].
  exact (seedDrafts_unique mapped (mapBudget budget) Hnd' Hin').
Qed.

(** X15.  A fetched record with no amount gets the empty string as its
    amount, and the empty string reads as the number 0: focusing that
    amount cell and leaving it without typing issues an update that writes
    the number 0 to the store. *)
Theorem blur_on_missing_amount_writes_zero
    (data : list Promx_budgets) (budget : Promx_budgets) (st : State) :
  NoDup (map promx_budgetid data) →
  budget ∈ data →
  budget.(promx_budgetconsumed) = None →
  let st' := loadBudgets (Fulfilled (Some data)) st in
  let cell := editableField st' (mapBudget budget) FBudgetConsumed in
  cell.(ef_value) = "" ∧
  (dispatch st' (onBlur cell)).2
  = [ {| call_id := budget.(promx_budgetid);
         call_payload := {[ "promx_budgetconsumed" := VNumber Js.pos_zero ]} |} ].
Proof.
  intros Hnd Hin Hnone st' cell. subst st' cell.
  destruct (loaded_cell data budget FBudgetConsumed st Hnd Hin) as [Hf Hblur].
  cbn [attributeOf] in Hblur. rewrite Hnone in Hblur. cbn [default] in Hblur.
  split.
  { unfold onBlur in Hblur. by injection Hblur. }
  rewrite Hblur.
  assert (Hv : passesValidation FBudgetConsumed "" = true) by reflexivity.
  assert (Hnext : nextValueOf FBudgetConsumed "" = "0") by reflexivity.
  rewrite (dispatch_commit_changed _ _ _ _ _ Hf Hv).
  - reflexivity.
  - rewrite Hnext. cbn [getField mapBudget budgetConsumed]. by rewrite Hnone.
Qed.

(** A record fetched without an amount. *)
Lemma blur_on_missing_amount_writes_zero_witness :
  let budget := {| promx_budgetid := "b2"; promx_name := Some "Travel";
                   promx_budgetconsumed := None; ownerid := Some "o2" |} in
  let st' := loadBudgets (Fulfilled (Some [exampleBudget; budget])) initialState in
  NoDup (map promx_budgetid [exampleBudget; budget]) ∧
  (dispatch st' (onBlur (editableField st' (mapBudget budget) FBudgetConsumed))).2
  = [ {| call_id := "b2";
         call_payload := {[ "promx_budgetconsumed" := VNumber Js.pos_zero ]} |} ].
Proof.
  intros budget st'.
  assert (Hnd : NoDup (map promx_budgetid [exampleBudget; budget])).
  { apply (bool_decide_unpack _). vm_compute. exact I. }
  assert (Hin : budget ∈ [exampleBudget; budget]) by repeat constructor.
  split; [exact Hnd|].
  exact (proj2 (blur_on_missing_amount_writes_zero [exampleBudget; budget] budget
                  initialState Hnd Hin eq_refl)).
Defined.

(** X16.  Leaving the [name] or [ownerId] cell of a freshly loaded row
    without typing is silent exactly when the stored text has no white
    space at either end; otherwise the blur issues an update that writes
    the trimmed text. *)
Theorem blur_on_unedited_text_cell
    (data : list Promx_budgets) (budget : Promx_budgets) (field : DraftField)
    (st : State) :
  field ≠ FBudgetConsumed →
  NoDup (map promx_budgetid data) →
  budget ∈ data →
  let st' := loadBudgets (Fulfilled (Some data)) st in
  let stored := default "" (attributeOf budget field) in
  (dispatch st' (onBlur (editableField st' (mapBudget budget) field))).2
  = if decide (Js.trim stored = stored) then []
    else [ {| call_id := budget.(promx_budgetid);
              call_payload := payloadOf field stored |} ].
Proof.
  intros Hfield Hnd Hin st' stored. subst st' stored.
  destruct (loaded_cell data budget field st Hnd Hin) as [Hf Hblur].
  rewrite Hblur.
  pose proof (passesValidation_text field (default "" (attributeOf budget field)) Hfield)
    as Hv.
  pose proof (nextValueOf_text field (default "" (attributeOf budget field)) Hfield)
    as Hnext.
  case_decide as Htrim.
  - cbn [dispatch].
    rewrite (commitBegin_unchanged _ _ _ _ _ Hf Hv); [done|].
    by rewrite Hnext, Htrim, getField_mapBudget.
  - rewrite (dispatch_commit_changed _ _ _ _ _ Hf Hv); [done|].
    rewrite Hnext, getField_mapBudget. congruence.
Qed.

(** A name stored with a trailing space. *)
Lemma blur_on_unedited_text_cell_witness :
  let budget := {| promx_budgetid := "b3"; promx_name := Some "Travel ";
                   promx_budgetconsumed := Some "7"; ownerid := Some "o3" |} in
  let st' := loadBudgets (Fulfilled (Some [budget])) initialState in
  NoDup (map promx_budgetid [budget]) ∧
  (dispatch st' (onBlur (editableField st' (mapBudget budget) FName))).2
  = [ {| call_id := "b3"; call_payload := {[ "promx_name" := VString "Travel" ]} |} ] ∧
  (dispatch st' (onBlur (editableField st' (mapBudget budget) FOwnerId))).2 = [].
Proof.
  intros budget st'.
  assert (Hnd : NoDup (map promx_budgetid [budget])).
  { apply (bool_decide_unpack _). vm_compute. exact I. }
  assert (Hin : budget ∈ [budget]) by repeat constructor.
  assert (Hn : FName ≠ FBudgetConsumed) by discriminate.
  assert (Ho : FOwnerId ≠ FBudgetConsumed) by discriminate.
  split; [exact Hnd|]. split.
  - exact (blur_on_unedited_text_cell [budget] budget FName initialState Hn Hnd Hin).
  - exact (blur_on_unedited_text_cell [budget] budget FOwnerId initialState Ho Hnd Hin).
Defined.
